(** * Path manipulation of [src/lib/fs/path.c]: a shallow embedding

    The C functions of [path.c] are embedded as Rocq functions over
    character lists.  A value of type [cstring] is the content of a
    NUL-terminated buffer, i.e. the characters before the terminator; the
    C expression [s[i]] for [i <= strlen(s)] is [s @ i], which yields the
    terminator at [i = strlen(s)].  Lengths and indices are natural numbers
    or integers: the strings are taken to be shorter than the range of the
    C type [int], so that no index overflows.  The two build
    configurations ([_WIN32] defined or not) are the two values of
    [platform]. *)

From Stdlib Require Import Ascii String ZArith Lia Bool Arith List.
Import ListNotations.

Local Open Scope list_scope.

(** ** Characters and C strings *)

Definition cstring := list ascii.

Definition cs (s : string) : cstring := list_ascii_of_string s.

Definition NUL : ascii := ascii_of_nat 0.
Definition QUOTE : ascii := ascii_of_nat 34.
Definition BACKSLASH : ascii := ascii_of_nat 92.
Definition SLASH : ascii := ascii_of_nat 47.
Definition STAR : ascii := ascii_of_nat 42.
Definition QMARK : ascii := ascii_of_nat 63.
Definition COLON : ascii := ascii_of_nat 58.

(** [s[i]] in C. *)
Definition char_at (s : cstring) (i : nat) : ascii := nth i s NUL.

Notation "s @ i" := (char_at s i) (at level 20, i at next level).

(** C truth value of a comparison, as used in integer arithmetic. *)
Definition b2n (b : bool) : nat := if b then 1 else 0.

Inductive platform := Posix | Win32.

(** [PATH_SEPARATOR] comes from [lib/fs/path.h]: a one-character string. *)
Definition PATH_SEPARATOR (p : platform) : cstring :=
  match p with
  | Posix => [SLASH]
  | Win32 => [BACKSLASH]
  end.

(** Modelled from the spec: [TOR_ISALPHA] of [lib/string/compat_ctype.h] is
    not part of the sources at hand; the spec calls the accepted characters
    a letter, and the macro is a locale-independent ASCII test. *)
Definition TOR_ISALPHA (c : ascii) : bool :=
  let n := nat_of_ascii c in
  ((65 <=? n) && (n <=? 90)) || ((97 <=? n) && (n <=? 122)).

(** ** [IS_GLOB_CHAR] and [has_glob] *)

Definition IS_GLOB_CHAR (p : platform) (s : cstring) (i : nat) : bool :=
  match p with
  | Win32 => Ascii.eqb (s @ i) STAR || Ascii.eqb (s @ i) QMARK
  | Posix =>
      (Ascii.eqb (s @ i) STAR || Ascii.eqb (s @ i) QMARK)
      && ((i =? 0) || negb (Ascii.eqb (s @ (i - 1)) BACKSLASH))
  end.

(** The loop [for (i = 0; s[i]; i++)] of [has_glob], with [steps] the number
    of characters left before the terminator. *)
Fixpoint has_glob_loop (p : platform) (s : cstring) (steps i : nat) : bool :=
  match steps with
  | O => false
  | S k => if IS_GLOB_CHAR p s i then true else has_glob_loop p s k (S i)
  end.

Definition has_glob (p : platform) (s : cstring) : bool :=
  has_glob_loop p s (length s) 0.

(** ** [get_unquoted_path] *)

(** [*(s-1) = c]: overwrite the character written last. *)
Definition overwrite_last (out : cstring) (c : ascii) : cstring :=
  removelast out ++ [c].

(** The [for] loop of [get_unquoted_path]: [i] is the index into [path],
    [out] the characters written to [unquoted_path] so far (the cursor [s]
    stands after them), [steps] the number of iterations left.  [None] is
    the early [return NULL]. *)
Fixpoint unquote_loop (path : cstring) (steps i : nat) (out : cstring)
  : option cstring :=
  match steps with
  | O => Some out
  | S k =>
      if Ascii.eqb (path @ i) QUOTE
         && ((0 <? i) && Ascii.eqb (path @ (i - 1)) BACKSLASH)
      then unquote_loop path k (S i) (overwrite_last out (path @ i))
      else if negb (Ascii.eqb (path @ i) QUOTE)
      then unquote_loop path k (S i) (out ++ [path @ i])
      else None
  end.

Definition get_unquoted_path (path : cstring) : option cstring :=
  let len := length path in
  if len =? 0 then Some []
  else
    let has_start_quote := Ascii.eqb (path @ 0) QUOTE in
    let has_end_quote := (0 <? len) && Ascii.eqb (path @ (len - 1)) QUOTE in
    if negb (Bool.eqb has_start_quote has_end_quote)
       || ((len =? 1) && has_start_quote)
    then None
    else
      unquote_loop path
        (len - b2n has_end_quote - b2n has_start_quote)
        (b2n has_start_quote) [].

(** The behaviour of the quote parser in the words of its description: the
    part of the input between the enclosing quotes (the whole input when it
    is not quoted), and the rewriting of every backslash-quote pair to a
    bare quote. *)
Definition quoted (path : cstring) : bool := Ascii.eqb (path @ 0) QUOTE.

Definition interior (path : cstring) : cstring :=
  if quoted path then removelast (tl path) else path.

Fixpoint unescape_quotes (l : cstring) : cstring :=
  match l with
  | c :: r =>
      match r with
      | d :: t =>
          if Ascii.eqb c BACKSLASH && Ascii.eqb d QUOTE
          then d :: unescape_quotes t
          else c :: unescape_quotes r
      | [] => [c]
      end
  | [] => []
  end.

(** ** [path_is_relative] *)

(** [filename] may be the null pointer: [None]. *)
Definition path_is_relative (p : platform) (filename : option cstring) : Z :=
  match filename with
  | None => 1%Z
  | Some f =>
      if Ascii.eqb (f @ 0) SLASH then 0%Z
      else
        match p with
        | Posix => 1%Z
        | Win32 =>
            if Ascii.eqb (f @ 0) BACKSLASH then 0%Z
            else if (3 <? length f) && TOR_ISALPHA (f @ 0)
                    && Ascii.eqb (f @ 1) COLON
                    && Ascii.eqb (f @ 2) BACKSLASH
            then 0%Z
            else 1%Z
        end
  end.

(** ** [clean_fname_for_stat] *)

Definition clean_fname_for_stat (p : platform) (name : cstring) : cstring :=
  match p with
  | Posix => name
  | Win32 =>
      let len := length name in
      if len =? 0 then name
      else if Ascii.eqb (name @ (len - 1)) BACKSLASH
              || Ascii.eqb (name @ (len - 1)) SLASH
      then
        if (len =? 1) || ((len =? 3) && Ascii.eqb (name @ 1) COLON)
        then name
        else firstn (len - 1) name
      else name
  end.

(** ** [get_parent_directory] *)

Definition is_sep (p : platform) (c : ascii) : bool :=
  match p with
  | Posix => Ascii.eqb c SLASH
  | Win32 => Ascii.eqb c SLASH || Ascii.eqb c BACKSLASH
  end.

(** Number of characters skipped by [fname += 2]. *)
Definition drive_prefix (p : platform) (fname : cstring) : nat :=
  match p with
  | Posix => 0
  | Win32 =>
      if negb (Ascii.eqb (fname @ 0) NUL) && Ascii.eqb (fname @ 1) COLON
      then 2 else 0
  end.

(** The loop [while (--cp >= fname)].  [k] is [cp - fname] before the
    decrement, so the character inspected is at index [k - 1]; storing the
    terminator at index [j] truncates the buffer to its first [j]
    characters.  The result pairs the return value with the buffer. *)
Fixpoint parent_loop (p : platform) (k : nat) (fname : cstring)
  (at_end : bool) : Z * cstring :=
  match k with
  | O => ((-1)%Z, fname)
  | S cp =>
      if is_sep p (fname @ cp) then
        if cp =? 0 then (0%Z, firstn 1 fname)
        else
          let fname' := firstn cp fname in
          if negb at_end then (0%Z, fname')
          else parent_loop p cp fname' at_end
      else parent_loop p cp fname false
  end.

Definition get_parent_directory (p : platform) (fname : cstring)
  : Z * cstring :=
  let d := drive_prefix p fname in
  let rest := skipn d fname in
  let (r, rest') := parent_loop p (length rest) rest true in
  (r, firstn d fname ++ rest').

(** ** The collaborators of the glob engine

    [file_status], [tor_listdir] and [PathMatchSpec] are supplied by the
    host; the engine only calls them.  The file system is taken to be
    unchanged during one expansion, so each collaborator is a function, and
    every call made by the engine is recorded in a log. *)

(** Modelled from the spec: [file_status_t] of [lib/fs/files.h] is not part
    of the sources at hand; the spec lists the File Status Tags Error,
    NotExist, File, Directory and Other. *)
Inductive file_status_t := FN_ERROR | FN_NOENT | FN_FILE | FN_DIR | FN_EMPTY.

(** Modelled from the spec: [is_file] and [is_dir] of [lib/fs/files.c] are
    not part of the sources at hand; a path is a file when it exists and is
    not a directory, and a directory when its tag is Directory. *)
Definition is_file (file_type : file_status_t) : bool :=
  match file_type with
  | FN_FILE | FN_EMPTY => true
  | FN_ERROR | FN_NOENT | FN_DIR => false
  end.

Definition is_dir (file_type : file_status_t) : bool :=
  match file_type with
  | FN_DIR => true
  | _ => false
  end.

Record filesystem := {
  file_status : cstring -> file_status_t;
  tor_listdir : cstring -> option (list cstring);
  PathMatchSpec : cstring -> cstring -> bool
}.

Inductive fs_call :=
| StatCall (path : cstring)
| ListCall (dirname : cstring)
| MatchCall (file spec : cstring).

(** A computation that returns a value and the log of the collaborator
    calls it made, in order. *)
Definition io (A : Type) : Type := (A * list fs_call)%type.

Definition ret {A : Type} (a : A) : io A := (a, []).

Definition bind {A B : Type} (m : io A) (f : A -> io B) : io B :=
  let (a, l1) := m in
  let (b, l2) := f a in
  (b, l1 ++ l2).

Definition value {A : Type} (m : io A) : A := fst m.
Definition calls {A : Type} (m : io A) : list fs_call := snd m.

Declare Scope io_scope.
Delimit Scope io_scope with io.
Notation "x <- m ;; k" := (bind m (fun x => k))
  (at level 61, m at next level, right associativity) : io_scope.

(** Modelled from the spec: the allocation and string helpers of
    [lib/malloc] and [lib/string] are not part of the sources at hand;
    [tor_strndup] copies at most [n] characters and [tor_strreplacechar]
    replaces every occurrence of one character by another. *)
Definition tor_strndup (s : cstring) (n : nat) : cstring := firstn n s.

Definition tor_strreplacechar (s : cstring) (find replacement : ascii)
  : cstring :=
  map (fun c => if Ascii.eqb c find then replacement else c) s.

(** [tor_asprintf] with the format ["%s"PATH_SEPARATOR"%s"], as the Windows
    code calls it. *)
Definition path_join (a b : cstring) : cstring :=
  a ++ PATH_SEPARATOR Win32 ++ b.

(** The local [path_until_glob] of [unglob_win32]: the first [len]
    characters of the pattern. *)
Definition path_until_glob (pattern : cstring) (prev_sep : Z) : cstring :=
  let len := if (prev_sep <? 1)%Z then (prev_sep + 1)%Z else prev_sep in
  tor_strndup pattern (Z.to_nat len).

(** [&pattern[curr_sep+1]]: the pattern after the fragment with globs. *)
Definition glob_suffix (pattern : cstring) (curr_sep : Z) : cstring :=
  skipn (Z.to_nat (curr_sep + 1)) pattern.

(** Outcome of a run of the recursive engine with bounded depth: the
    bound was reached, or the engine returned a list or the null pointer
    ([Finished None]). *)
Inductive outcome :=
| OutOfFuel
| Finished (results : option (list cstring)).

Section GlobEngine.

Variable fs : filesystem.

Local Open Scope io_scope.

Definition do_file_status (path : cstring) : io file_status_t :=
  (file_status fs path, [StatCall path]).

Definition do_listdir (dirname : cstring) : io (option (list cstring)) :=
  (tor_listdir fs dirname, [ListCall dirname]).

Definition do_PathMatchSpec (file spec : cstring) : io bool :=
  (PathMatchSpec fs file spec, [MatchCall file spec]).

(** [add_non_glob_path]: the flag returned, and the list [results] after
    the call. *)
Definition add_non_glob_path (p : platform) (path : cstring)
  (results : list cstring) : io (bool * list cstring) :=
  file_type <- do_file_status path ;;
  match file_type with
  | FN_ERROR => ret (false, results)
  | FN_NOENT => ret (true, results)
  | _ => ret (true, results ++ [clean_fname_for_stat p path])
  end.

(** The [SMARTLIST_FOREACH] loop of [unglob_win32]; [dir] is the local
    [path_until_glob]. *)
Fixpoint unglob_entries (pattern dir : cstring) (curr_sep : Z)
  (filenames : list cstring) (results : list cstring)
  : io (list cstring) :=
  match filenames with
  | [] => ret results
  | filename :: rest =>
      let full_path := path_join dir filename in
      let path_curr_glob := tor_strndup pattern (Z.to_nat (curr_sep + 1)) in
      st <- do_file_status full_path ;;
      let path_curr_glob :=
        if is_dir st then clean_fname_for_stat Win32 path_curr_glob
        else path_curr_glob in
      m <- do_PathMatchSpec full_path path_curr_glob ;;
      unglob_entries pattern dir curr_sep rest
        (if m then results ++ [full_path] else results)
  end.

Definition unglob_win32 (pattern : cstring) (prev_sep curr_sep : Z)
  : io (option (list cstring)) :=
  let dir := path_until_glob pattern prev_sep in
  st <- do_file_status dir ;;
  if negb (is_file st) then
    filenames <- do_listdir dir ;;
    match filenames with
    | None => ret None
    | Some fl =>
        results <- unglob_entries pattern dir curr_sep fl [] ;;
        ret (Some results)
    end
  else ret (Some []).

(** The first loop of [tor_glob_win32], which looks for the first path
    fragment with globs; the result is [(is_glob, prev_sep, curr_sep)]
    after the loop. *)
Fixpoint find_glob_fragment (pattern : cstring) (steps i : nat)
  (is_glob : bool) (prev_sep curr_sep : Z) : bool * Z * Z :=
  match steps with
  | O => (is_glob, prev_sep, curr_sep)
  | S k =>
      let is_glob := is_glob || IS_GLOB_CHAR Win32 pattern i in
      let is_last := Ascii.eqb (pattern @ (i + 1)) NUL in
      let is_sep :=
        Ascii.eqb (pattern @ i) BACKSLASH || Ascii.eqb (pattern @ i) SLASH in
      if is_sep || is_last then
        if is_glob then (is_glob, curr_sep, Z.of_nat i)
        else find_glob_fragment pattern k (S i) is_glob curr_sep (Z.of_nat i)
      else find_glob_fragment pattern k (S i) is_glob prev_sep curr_sep
  end.

(** The loop run from its initial state. *)
Definition glob_fragment (pattern : cstring) : bool * Z * Z :=
  find_glob_fragment pattern (length pattern) 0 false (-1) (-1).

(** The second loop of [tor_glob_win32], over [unglobbed_paths]; [rec] is
    the recursive call and [suffix] is [&pattern[curr_sep+1]].  The
    result is [(error_found, results)] after the loop, or [None] when a
    recursive call reached the depth bound. *)
Fixpoint expand_each (rec : cstring -> io outcome) (suffix : cstring)
  (unglobbed_paths : list cstring) (results : list cstring)
  : io (option (bool * list cstring)) :=
  match unglobbed_paths with
  | [] => ret (Some (false, results))
  | current_path :: rest =>
      let next_path := path_join current_path suffix in
      opened_next <- rec next_path ;;
      match opened_next with
      | OutOfFuel => ret None
      | Finished None => ret (Some (true, results))
      | Finished (Some l) => expand_each rec suffix rest (results ++ l)
      end
  end.

Fixpoint tor_glob_win32 (fuel : nat) (pattern : cstring) : io outcome :=
  match fuel with
  | O => ret OutOfFuel
  | S fuel' =>
      let '(is_glob, prev_sep, curr_sep) := glob_fragment pattern in
      if negb is_glob then
        r <- add_non_glob_path Win32 pattern [] ;;
        let '(ok, results) := r in
        ret (Finished (if ok then Some results else None))
      else
        unglobbed_paths <- unglob_win32 pattern prev_sep curr_sep ;;
        match unglobbed_paths with
        | None => ret (Finished None)
        | Some paths =>
            r <- expand_each (tor_glob_win32 fuel')
                   (glob_suffix pattern curr_sep) paths [] ;;
            match r with
            | None => ret OutOfFuel
            | Some (error_found, results) =>
                ret (Finished (if (error_found : bool) then None
                               else Some results))
            end
        end
  end.

End GlobEngine.

(** [tor_glob] where [_WIN32] is defined: the manual backend. *)
Module WindowsBuild.

Definition tor_glob (fs : filesystem) (fuel : nat) (pattern : cstring)
  : io outcome :=
  let pattern_normalized := tor_strreplacechar pattern SLASH BACKSLASH in
  tor_glob_win32 fs fuel pattern_normalized.

End WindowsBuild.

(** [tor_glob] elsewhere: the native backend.  The facility [glob] of the C
    library and the constants of [<glob.h>] are taken as given; [glob]
    returns its status together with [gl_pathv]. *)
Record glob_facility := {
  glob : cstring -> Z -> Z * list cstring;
  GLOB_NOMATCH : Z;
  GLOB_ERR : Z;
  GLOB_NOSORT : Z;
  GLOB_ALTDIRFUNC : option Z
}.

Module UnixBuild.

(** The body of the [for] loop over [gl_pathv]. *)
Definition strip_match (m : cstring) : cstring :=
  let len := length m in
  if (0 <? len) && Ascii.eqb (m @ (len - 1)) SLASH
  then firstn (len - 1) m
  else m.

(** [GLOB_ERR | GLOB_NOSORT], and [GLOB_ALTDIRFUNC] where the C library
    defines it. *)
Definition glob_flags (g : glob_facility) : Z :=
  let flags := Z.lor (GLOB_ERR g) (GLOB_NOSORT g) in
  match GLOB_ALTDIRFUNC g with
  | Some f => Z.lor flags f
  | None => flags
  end.

Definition tor_glob (g : glob_facility) (pattern : cstring)
  : option (list cstring) :=
  let (r, gl_pathv) := glob g pattern (glob_flags g) in
  if (r =? GLOB_NOMATCH g)%Z then Some []
  else if negb (r =? 0)%Z then None
  else Some (map strip_match gl_pathv).

End UnixBuild.

(** ** Predicates used to state the properties *)

(** A metacharacter that counts: [*] or [?], and where backslash escapes
    (everywhere but on Windows) not right after a backslash. *)
Definition unescaped_metachar (p : platform) (s : cstring) (i : nat) : Prop :=
  i < length s
  /\ (s @ i = STAR \/ s @ i = QMARK)
  /\ (p = Posix -> i = 0 \/ s @ (i - 1) <> BACKSLASH).

(** The input ends with a quote character. *)
Definition end_quoted (path : cstring) : bool :=
  Ascii.eqb (last path NUL) QUOTE.

(** A quote at index [j] of [l] that no backslash right before it escapes. *)
Definition bare_quote_at (l : cstring) (j : nat) : Prop :=
  j < length l /\ l @ j = QUOTE /\ (j = 0 \/ l @ (j - 1) <> BACKSLASH).

(** The inputs the quote parser rejects. *)
Definition malformed_quoting (path : cstring) : Prop :=
  quoted path <> end_quoted path
  \/ path = [QUOTE]
  \/ exists j, bare_quote_at (interior path) j.

(** The character before index [i] is a backslash. *)
Definition after_backslash (path : cstring) (i : nat) : bool :=
  (0 <? i) && Ascii.eqb (path @ (i - 1)) BACKSLASH.


(** Listing the directory of the fragment with globs of [q] fails. *)
Definition enumeration_fails (fs : filesystem) (q : cstring) : Prop :=
  exists prev_sep curr_sep,
    glob_fragment q = (true, prev_sep, curr_sep)
    /\ is_file (file_status fs (path_until_glob q prev_sep)) = false
    /\ tor_listdir fs (path_until_glob q prev_sep) = None.


(** The last character is a separator of the Windows build, resp. a
    slash. *)
Definition ends_with_sep (p : platform) (s : cstring) : bool :=
  match s with
  | [] => false
  | _ => is_sep p (last s NUL)
  end.

(** The last two characters are separators. *)
Definition ends_with_two_seps (p : platform) (s : cstring) : bool :=
  ends_with_sep p s && ends_with_sep p (removelast s).

(** ** Example collaborators, used to run the engine on concrete input *)

Fixpoint cstring_eqb (a b : cstring) : bool :=
  match a, b with
  | [], [] => true
  | x :: a', y :: b' => Ascii.eqb x y && cstring_eqb a' b'
  | _, _ => false
  end.

Definition mem (p : cstring) (l : list cstring) : bool :=
  existsb (cstring_eqb p) l.

(** A small tree: the directory [d] holds the directories [x] and [y]; [x]
    holds the file [f]; [y] cannot be listed.  As the real [file_status]
    does, the example cleans the name before looking it up.  Every name
    matches every specification. *)
Definition tree_fs : filesystem := {|
  file_status := fun path =>
    let path := clean_fname_for_stat Win32 path in
    if mem path [cs "d"; cs "d\x"; cs "d\y"] then FN_DIR
    else if mem path [cs "d\x\f"] then FN_FILE
    else FN_NOENT;
  tor_listdir := fun dirname =>
    if cstring_eqb dirname (cs "d") then Some [cs "x"; cs "y"]
    else if cstring_eqb dirname (cs "d\x") then Some [cs "f"]
    else None;
  PathMatchSpec := fun _ _ => true
|}.

(** A file system in which nothing exists: no path has a status other than
    [FN_NOENT], and no directory can be listed. *)
Definition empty_fs : filesystem := {|
  file_status := fun _ => FN_NOENT;
  tor_listdir := fun _ => None;
  PathMatchSpec := fun _ _ => false
|}.

(** A facility that reports success with the one match [a//], with the
    constants of the GNU C library. *)
Definition double_slash_glob : glob_facility := {|
  glob := fun _ _ => (0%Z, [cs "a//"]);
  GLOB_NOMATCH := 3;
  GLOB_ERR := 1;
  GLOB_NOSORT := 4;
  GLOB_ALTDIRFUNC := Some 512%Z
|}.



(** Number of [*] and [?] in a string, the bound on the depth of the
    recursion of the manual backend. *)
Definition is_metachar (c : ascii) : bool :=
  Ascii.eqb c STAR || Ascii.eqb c QMARK.

Definition count_globs (s : cstring) : nat := length (filter is_metachar s).

(** Directory listings name no entry with [*] or [?]; Windows does not
    allow these characters in file names. *)
Definition glob_free_listings (fs : filesystem) : Prop :=
  forall dirname entries filename,
    tor_listdir fs dirname = Some entries ->
    In filename entries ->
    has_glob Win32 filename = false.

(** ** [expand_filename]

    The environment variable [HOME], the user database and the build
    option [HAVE_PWD_H] are supplied by the host.  A call returns its
    result together with the warnings it logged. *)

Record user_env := {
  getenv_HOME : option cstring;
  get_user_homedir : cstring -> option cstring;
  HAVE_PWD_H : bool
}.

Inductive warning :=
| WarnNoHome (filename : cstring)
| WarnNoHomedir (username : cstring)
| WarnNoPwd
| WarnNoCwd.

Definition TILDE : ascii := ascii_of_nat 126.

(** [strchr] of the C library: the index of the first occurrence. *)
Fixpoint strchr (s : cstring) (c : ascii) : option nat :=
  match s with
  | [] => None
  | x :: t => if Ascii.eqb x c then Some 0 else option_map S (strchr t c)
  end.

(** Modelled from the spec: [strcmpend] of [lib/string/util_string.c] is
    not part of the sources at hand; it is used to find a trailing
    separator on the home directory, and is zero exactly when its first
    argument ends with its second.  The function below is that test. *)
Definition strcmpend_is_zero (s1 s2 : cstring) : bool :=
  (length s2 <=? length s1)
  && cstring_eqb (skipn (length s1 - length s2) s1) s2.

(** The common end of both branches: remove a trailing slash from [home],
    then print [home], the separator and [rest]. *)
Definition join_home (home rest : cstring) : cstring :=
  let home :=
    if (1 <? length home) && strcmpend_is_zero home (PATH_SEPARATOR Posix)
    then firstn (length home - 1) home
    else home in
  home ++ PATH_SEPARATOR Posix ++ rest.

Definition expand_filename (p : platform) (e : user_env) (filename : cstring)
  : option cstring * list warning :=
  match p with
  | Win32 => (Some filename, [])
  | Posix =>
      if Ascii.eqb (filename @ 0) TILDE then
        if Ascii.eqb (filename @ 1) SLASH || Ascii.eqb (filename @ 1) NUL
        then
          let rest :=
            if 2 <=? length filename then skipn 2 filename else [] in
          match getenv_HOME e with
          | None => (Some (join_home [] rest), [WarnNoHome filename])
          | Some home => (Some (join_home home rest), [])
          end
        else if HAVE_PWD_H e then
          let slash := strchr filename SLASH in
          let username :=
            match slash with
            | Some i => tor_strndup (skipn 1 filename) (i - 1)
            | None => skipn 1 filename
            end in
          match get_user_homedir e username with
          | None => (None, [WarnNoHomedir username])
          | Some home =>
              let rest :=
                match slash with
                | Some i => skipn (i + 1) filename
                | None => []
                end in
              (Some (join_home home rest), [])
          end
        else (Some filename, [WarnNoPwd])
      else (Some filename, [])
  end.

(** ** [alloc_getcwd] and [make_path_absolute]

    The working directory is supplied by the host through
    [get_current_dir_name] or [getcwd], and on Windows the absolute name
    through [_fullpath]. *)

Inductive getcwd_result :=
| CwdOk (cwd : cstring)
| CwdERANGE
| CwdError.

Record cwd_env := {
  HAVE_GET_CURRENT_DIR_NAME : bool;
  get_current_dir_name : option cstring;
  getcwd : nat -> getcwd_result;
  fullpath : cstring -> option cstring
}.

(** A run with a bound on the number of loop iterations. *)
Inductive bounded (A : Type) :=
| Timeout
| Done (a : A).

Arguments Timeout {A}.
Arguments Done {A} a.

(** The loop [while (ptr == NULL)] of [alloc_getcwd]; [size] is the size
    of the buffer passed to [getcwd]. *)
Fixpoint alloc_getcwd_loop (e : cwd_env) (fuel size : nat)
  : bounded (option cstring) :=
  match fuel with
  | O => Timeout
  | S fuel' =>
      match getcwd e size with
      | CwdOk buf => Done (Some buf)
      | CwdError => Done None
      | CwdERANGE => alloc_getcwd_loop e fuel' (size * 2)
      end
  end.

Definition alloc_getcwd (e : cwd_env) (fuel : nat)
  : bounded (option cstring) :=
  if HAVE_GET_CURRENT_DIR_NAME e then Done (get_current_dir_name e)
  else alloc_getcwd_loop e fuel 1024.

Definition make_path_absolute (p : platform) (e : cwd_env) (fuel : nat)
  (fname : cstring) : bounded (cstring * list warning) :=
  match p with
  | Win32 =>
      match fullpath e fname with
      | Some absfname_malloced => Done (absfname_malloced, [])
      | None => Done (fname, [])
      end
  | Posix =>
      if Ascii.eqb (fname @ 0) SLASH then Done (fname, [])
      else
        match alloc_getcwd e fuel with
        | Timeout => Timeout
        | Done (Some path) => Done (path ++ [SLASH] ++ fname, [])
        | Done None => Done (fname, [WarnNoCwd])
        end
  end.

(** [getcwd] as the C library specifies it for a working directory [cwd]:
    it fails with [ERANGE] when the name and its terminator do not fit. *)
Definition posix_getcwd (cwd : cstring) (size : nat) : getcwd_result :=
  if length cwd <? size then CwdOk cwd else CwdERANGE.

(** ** Further predicates and example hosts *)

(** The rewriting that [get_unquoted_path] undoes: a backslash before
    every quote. *)
Fixpoint escape_quotes (s : cstring) : cstring :=
  match s with
  | [] => []
  | c :: t =>
      if Ascii.eqb c QUOTE then BACKSLASH :: QUOTE :: escape_quotes t
      else c :: escape_quotes t
  end.

(** The part of a name that [get_parent_directory] works on. *)
Definition path_body (p : platform) (fname : cstring) : cstring :=
  skipn (drive_prefix p fname) fname.

Definition sep_free (p : platform) (s : cstring) : Prop :=
  Forall (fun c => is_sep p c = false) s.

Definition all_seps (p : platform) (s : cstring) : Prop :=
  Forall (fun c => is_sep p c = true) s.

(** The specification [unglob_win32] matches an entry against: the
    pattern up to [curr_sep], cleaned when the entry is a directory. *)
Definition entry_spec (fs : filesystem) (pattern : cstring) (curr_sep : Z)
  (full_path : cstring) : cstring :=
  let path_curr_glob := tor_strndup pattern (Z.to_nat (curr_sep + 1)) in
  if is_dir (file_status fs full_path)
  then clean_fname_for_stat Win32 path_curr_glob
  else path_curr_glob.

Definition entry_matches (fs : filesystem) (pattern dir : cstring)
  (curr_sep : Z) (filename : cstring) : bool :=
  PathMatchSpec fs (path_join dir filename)
    (entry_spec fs pattern curr_sep (path_join dir filename)).

(** A host where [HOME] is [/home/u/], the user [bob] lives in [/srv/bob]
    and no other user is known. *)
Definition home_env : user_env := {|
  getenv_HOME := Some (cs "/home/u/");
  get_user_homedir := fun username =>
    if cstring_eqb username (cs "bob") then Some (cs "/srv/bob") else None;
  HAVE_PWD_H := true
|}.

(** A host without [get_current_dir_name] whose working directory is
    [/work]. *)
Definition work_env : cwd_env := {|
  HAVE_GET_CURRENT_DIR_NAME := false;
  get_current_dir_name := None;
  getcwd := posix_getcwd (cs "/work");
  fullpath := fun _ => None
|}.

(** The status of an existing path: neither [FN_ERROR] nor [FN_NOENT]. *)
Definition status_exists (file_type : file_status_t) : bool :=
  match file_type with
  | FN_ERROR | FN_NOENT => false
  | _ => true
  end.

(** The name under which the manual backend confirms a match of the last
    fragment: the match followed by a separator. *)
Definition probe (p : cstring) : cstring := p ++ [BACKSLASH].

(** * Properties *)

(** ** Indexing *)

Lemma char_at_app_l (s t : cstring) (i : nat) :
  i < length s -> (s ++ t) @ i = s @ i.
Proof. intros H. unfold char_at. now rewrite app_nth1. Qed.

Lemma char_at_app_r (s t : cstring) (i : nat) :
  length s <= i -> (s ++ t) @ i = t @ (i - length s).
Proof. intros H. unfold char_at. now rewrite app_nth2. Qed.

Lemma char_at_end (s : cstring) (i : nat) : length s <= i -> s @ i = NUL.
Proof. intros H. unfold char_at. now apply nth_overflow. Qed.

Lemma char_at_cons (c : ascii) (s : cstring) (i : nat) :
  (c :: s) @ (S i) = s @ i.
Proof. reflexivity. Qed.

Lemma char_at_last (s : cstring) (c : ascii) : (s ++ [c]) @ (length s) = c.
Proof.
  rewrite char_at_app_r by lia. now rewrite Nat.sub_diag.
Qed.

Lemma char_at_firstn (s : cstring) (n i : nat) :
  i < n -> (firstn n s) @ i = s @ i.
Proof.
  unfold char_at. revert n i. induction s as [|c s IH]; intros n i H.
  - rewrite firstn_nil. reflexivity.
  - destruct n as [|n]; [lia|]. destruct i as [|i]; simpl; [reflexivity|].
    apply IH. lia.
Qed.

Lemma eqb_char (a b : ascii) : Ascii.eqb a b = true <-> a = b.
Proof. apply Ascii.eqb_eq. Qed.

Lemma neqb_char (a b : ascii) : Ascii.eqb a b = false <-> a <> b.
Proof. apply Ascii.eqb_neq. Qed.

(** ** The glob-character detector *)

Lemma IS_GLOB_CHAR_spec (p : platform) (s : cstring) (i : nat) :
  i < length s ->
  IS_GLOB_CHAR p s i = true <-> unescaped_metachar p s i.
Proof.
  intros Hi. unfold IS_GLOB_CHAR, unescaped_metachar.
  destruct p.
  - rewrite andb_true_iff, !orb_true_iff, negb_true_iff, Nat.eqb_eq,
      !eqb_char, neqb_char.
    intuition.
  - rewrite orb_true_iff, !eqb_char. intuition; discriminate.
Qed.

Lemma has_glob_loop_true (p : platform) (s : cstring) (k i : nat) :
  has_glob_loop p s k i = true <->
  exists j, i <= j < i + k /\ IS_GLOB_CHAR p s j = true.
Proof.
  revert i. induction k as [|k IH]; intros i; simpl.
  - split; [discriminate|]. intros (j & Hj & _). lia.
  - destruct (IS_GLOB_CHAR p s i) eqn:E.
    + split; [|reflexivity]. intros _. exists i. split; [lia|exact E].
    + rewrite IH. split; intros (j & Hj & Hg).
      * exists j. split; [lia|exact Hg].
      * exists j. split; [|exact Hg].
        destruct (Nat.eq_dec j i) as [->|]; [congruence|lia].
Qed.

Lemma has_glob_true (p : platform) (s : cstring) :
  has_glob p s = true <-> exists i, unescaped_metachar p s i.
Proof.
  unfold has_glob. rewrite has_glob_loop_true. split.
  - intros (j & Hj & Hg). exists j. apply IS_GLOB_CHAR_spec; [lia|exact Hg].
  - intros (j & Hm). exists j. pose proof Hm as (Hlt & _).
    split; [lia|]. now apply IS_GLOB_CHAR_spec.
Qed.

(** C8.  [has_glob] answers true exactly when the string holds a [*] or [?]
    that counts as a metacharacter: where backslash escapes, one at index 0
    or not right after a backslash; on Windows any one.  So it is true on
    "a*b" and "a?b" and false on "abc" in both builds, and a string whose
    only metacharacter follows a backslash is rejected where backslash
    escapes and accepted on Windows. *)
Theorem has_glob_detects_unescaped_metachars :
  (forall p s, has_glob p s = true <-> exists i, unescaped_metachar p s i)
  /\ (forall p, has_glob p (cs "a*b") = true)
  /\ (forall p, has_glob p (cs "a?b") = true)
  /\ (forall p, has_glob p (cs "abc") = false)
  /\ has_glob Posix (cs "a\*b") = false
  /\ has_glob Win32 (cs "a\*b") = true
  /\ (forall s, has_glob Posix (STAR :: s) = true)
  /\ (forall s, has_glob Posix (QMARK :: s) = true).
Proof.
  split; [exact has_glob_true|].
  repeat split; try (intros []; reflexivity); try reflexivity.
Qed.

(** ** The quote parser *)

Lemma skipn_char_at (s : cstring) (i : nat) :
  i < length s -> skipn i s = s @ i :: skipn (S i) s.
Proof.
  revert i. induction s as [|c s IH]; intros i H; simpl in H; [lia|].
  destruct i as [|i]; [reflexivity|].
  rewrite char_at_cons. simpl. apply IH. lia.
Qed.

Lemma backslash_not_quote : BACKSLASH <> QUOTE.
Proof. intros E. apply eqb_char in E. discriminate E. Qed.

Lemma unescape_pair (t : cstring) :
  unescape_quotes (BACKSLASH :: QUOTE :: t) = QUOTE :: unescape_quotes t.
Proof. reflexivity. Qed.

Lemma unescape_other (c : ascii) (r : cstring) :
  c <> BACKSLASH -> unescape_quotes (c :: r) = c :: unescape_quotes r.
Proof.
  intros H. destruct r as [|d t]; [reflexivity|].
  simpl. apply neqb_char in H. now rewrite H.
Qed.

Lemma unescape_keep (c d : ascii) (t : cstring) :
  d <> QUOTE ->
  unescape_quotes (c :: d :: t) = c :: unescape_quotes (d :: t).
Proof.
  intros H. simpl. apply neqb_char in H. rewrite H.
  now rewrite andb_false_r.
Qed.

Lemma after_backslash_S (path : cstring) (i : nat) :
  after_backslash path (S i) = Ascii.eqb (path @ i) BACKSLASH.
Proof.
  unfold after_backslash. simpl. now rewrite Nat.sub_0_r.
Qed.

Lemma unquote_loop_none (path : cstring) (k i : nat) (out : cstring) :
  unquote_loop path k i out = None <->
  exists j, i <= j < i + k /\ path @ j = QUOTE
            /\ after_backslash path j = false.
Proof.
  revert i out. induction k as [|k IH]; intros i out; simpl.
  - split; [discriminate|]. intros (j & Hj & _). lia.
  - fold (after_backslash path i).
    destruct (Ascii.eqb (path @ i) QUOTE) eqn:Eq;
      destruct (after_backslash path i) eqn:Eb; simpl.
    + rewrite IH. split; intros (j & Hj & Hq & Hb).
      * exists j. repeat split; try assumption; lia.
      * exists j. repeat split; try assumption; try lia.
        destruct (Nat.eq_dec j i) as [->|]; [congruence|lia].
    + split; [|reflexivity]. intros _. exists i.
      apply eqb_char in Eq. repeat split; try assumption; lia.
    + rewrite IH. split; intros (j & Hj & Hq & Hb).
      * exists j. repeat split; try assumption; lia.
      * exists j. repeat split; try assumption; try lia.
        destruct (Nat.eq_dec j i) as [->|]; [|lia].
        apply neqb_char in Eq. contradiction.
    + rewrite IH. split; intros (j & Hj & Hq & Hb).
      * exists j. repeat split; try assumption; lia.
      * exists j. repeat split; try assumption; try lia.
        destruct (Nat.eq_dec j i) as [->|]; [|lia].
        apply neqb_char in Eq. contradiction.
Qed.

(** What the loop returns, from a state in which the backslash that may
    escape the next character is the last character written. *)
Lemma unquote_loop_some (path : cstring) (k : nat) :
  forall (i : nat) (out r : cstring),
    i + k <= length path ->
    unquote_loop path k i out = Some r ->
    if after_backslash path i then
      forall out', out = out' ++ [BACKSLASH] ->
        r = out' ++ unescape_quotes (BACKSLASH :: firstn k (skipn i path))
    else r = out ++ unescape_quotes (firstn k (skipn i path)).
Proof.
  induction k as [|k IH]; intros i out r Hlen Hrun.
  - simpl in Hrun. injection Hrun as <-. simpl.
    destruct (after_backslash path i).
    + intros out' ->. reflexivity.
    + now rewrite app_nil_r.
  - simpl in Hrun. fold (after_backslash path i) in Hrun.
    rewrite (skipn_char_at path i) by lia.
    rewrite firstn_cons.
    assert (Hlen' : S i + k <= length path) by lia.
    destruct (Ascii.eqb (path @ i) QUOTE) eqn:Eq;
      destruct (after_backslash path i) eqn:Eb; simpl in Hrun;
      try discriminate.
    + (* an escaped quote replaces the backslash *)
      apply eqb_char in Eq.
      intros out' ->.
      unfold overwrite_last in Hrun. rewrite removelast_last in Hrun.
      specialize (IH (S i) _ r Hlen' Hrun).
      rewrite after_backslash_S, Eq in IH. simpl in IH.
      rewrite IH, Eq, unescape_pair, <- app_assoc. reflexivity.
    + apply neqb_char in Eq.
      specialize (IH (S i) _ r Hlen' Hrun).
      rewrite after_backslash_S in IH.
      intros out' ->.
      destruct (Ascii.eqb (path @ i) BACKSLASH) eqn:Es.
      * apply eqb_char in Es. rewrite Es in *.
        rewrite (IH (out' ++ [BACKSLASH])) by reflexivity.
        rewrite <- app_assoc.
        rewrite (unescape_keep BACKSLASH BACKSLASH)
          by exact backslash_not_quote.
        reflexivity.
      * apply neqb_char in Es. rewrite IH.
        rewrite unescape_keep by exact Eq.
        rewrite (unescape_other (path @ i)) by exact Es.
        rewrite <- !app_assoc. reflexivity.
    + apply neqb_char in Eq.
      specialize (IH (S i) _ r Hlen' Hrun).
      rewrite after_backslash_S in IH.
      destruct (Ascii.eqb (path @ i) BACKSLASH) eqn:Es.
      * apply eqb_char in Es. rewrite Es in *.
        apply (IH out). reflexivity.
      * apply neqb_char in Es. rewrite IH.
        rewrite (unescape_other (path @ i)) by exact Es.
        rewrite <- app_assoc. reflexivity.
Qed.

(** The loop run over the window [mid] of [pre ++ mid ++ post], where
    [pre] is empty or the opening quote. *)
Lemma unquote_window (pre mid post : cstring) :
  pre = [] \/ pre = [QUOTE] ->
  (unquote_loop (pre ++ mid ++ post) (length mid) (length pre) [] = None
   <-> exists j, bare_quote_at mid j)
  /\ (forall r,
         unquote_loop (pre ++ mid ++ post) (length mid) (length pre) [] = Some r
         -> r = unescape_quotes mid).
Proof.
  intros Hpre. set (path := pre ++ mid ++ post).
  assert (Hat : forall j, j < length mid -> path @ (length pre + j) = mid @ j).
  { intros j Hj. unfold path. rewrite char_at_app_r by lia.
    replace (length pre + j - length pre) with j by lia.
    now apply char_at_app_l. }
  assert (Hbs0 : after_backslash path (length pre) = false).
  { unfold after_backslash, path.
    destruct Hpre as [-> | ->]; reflexivity. }
  assert (HbsS : forall j, j < length mid ->
            after_backslash path (length pre + S j)
            = Ascii.eqb (mid @ j) BACKSLASH).
  { intros j Hj. rewrite Nat.add_succ_r, after_backslash_S. f_equal.
    now apply Hat. }
  split.
  - rewrite unquote_loop_none. split.
    + intros (i & Hi & Hq & Hb).
      exists (i - length pre).
      assert (Ei : i = length pre + (i - length pre)) by lia.
      rewrite Ei in Hq, Hb. rewrite Hat in Hq by lia.
      repeat split; [lia|exact Hq|].
      destruct (i - length pre) as [|j] eqn:Ej; [now left|right].
      rewrite HbsS in Hb by lia. apply neqb_char in Hb.
      simpl. now rewrite Nat.sub_0_r.
    + intros (j & Hj & Hq & Hb).
      exists (length pre + j). rewrite Hat by assumption.
      repeat split; [lia|lia|exact Hq|].
      destruct j as [|j]; [now rewrite Nat.add_0_r|].
      rewrite HbsS by lia. apply neqb_char.
      destruct Hb as [Hb|Hb]; [discriminate|].
      simpl in Hb. now rewrite Nat.sub_0_r in Hb.
  - intros r Hrun.
    apply unquote_loop_some in Hrun.
    2:{ unfold path. rewrite !length_app. lia. }
    fold path in Hbs0. rewrite Hbs0 in Hrun. simpl in Hrun.
    subst r. f_equal. unfold path.
    rewrite skipn_app, skipn_all, Nat.sub_diag. simpl.
    rewrite firstn_app, firstn_all, Nat.sub_diag. simpl.
    now rewrite app_nil_r.
Qed.

Lemma char_at_last_index (s : cstring) :
  s <> [] -> s @ (length s - 1) = last s NUL.
Proof.
  intros H. destruct (exists_last H) as (s' & c & ->).
  rewrite last_last, length_app. simpl.
  replace (length s' + 1 - 1) with (length s') by lia.
  apply char_at_last.
Qed.

(** An input of at least two characters that starts and ends with a quote
    is its interior between two quotes. *)
Lemma quoted_shape (path : cstring) :
  quoted path = true -> end_quoted path = true -> path <> [QUOTE] ->
  path = [QUOTE] ++ interior path ++ [QUOTE].
Proof.
  unfold interior, quoted, end_quoted. intros Hs He Hne.
  rewrite Hs.
  destruct path as [|c t]; [discriminate Hs|].
  apply eqb_char in Hs. change ((c :: t) @ 0) with c in Hs. subst c.
  destruct t as [|d t]; [contradiction|].
  simpl tl. simpl app. f_equal.
  assert (Hl : last (d :: t) NUL = QUOTE).
  { apply eqb_char in He. exact He. }
  rewrite <- Hl.
  apply app_removelast_last. discriminate.
Qed.

Lemma get_unquoted_path_cases (path : cstring) :
  get_unquoted_path path =
  match path with
  | [] => Some []
  | _ =>
      if negb (Bool.eqb (quoted path) (end_quoted path))
         || (Ascii.eqb (path @ 0) QUOTE && (length path =? 1))
      then None
      else unquote_loop path (length (interior path)) (b2n (quoted path)) []
  end.
Proof.
  destruct path as [|c t]; [reflexivity|].
  unfold get_unquoted_path.
  set (path := c :: t).
  assert (Hne : path <> []) by discriminate.
  replace (length path =? 0) with false by reflexivity.
  replace (0 <? length path) with true by reflexivity.
  rewrite andb_true_l.
  rewrite (char_at_last_index path Hne).
  fold (quoted path) (end_quoted path).
  rewrite (andb_comm (length path =? 1)).
  destruct (negb (Bool.eqb (quoted path) (end_quoted path))
            || quoted path && (length path =? 1)) eqn:E; [reflexivity|].
  apply orb_false_iff in E. destruct E as [E1 E2].
  apply negb_false_iff, Bool.eqb_prop in E1.
  f_equal. rewrite <- E1.
  destruct (quoted path) eqn:Eq.
  - assert (Hn1 : path <> [QUOTE]).
    { intros E. rewrite E in E2. discriminate E2. }
    symmetry in E1.
    pose proof (quoted_shape path Eq E1 Hn1) as Hs.
    rewrite Hs at 1. rewrite !length_app. simpl. lia.
  - unfold interior. rewrite Eq. simpl. lia.
Qed.

Lemma unquote_interior (path : cstring) :
  path <> [] -> quoted path = end_quoted path -> path <> [QUOTE] ->
  (unquote_loop path (length (interior path)) (b2n (quoted path)) [] = None
   <-> exists j, bare_quote_at (interior path) j)
  /\ (forall r,
        unquote_loop path (length (interior path)) (b2n (quoted path)) []
        = Some r -> r = unescape_quotes (interior path)).
Proof.
  intros Hne E1 Hn1.
  destruct (quoted path) eqn:Eq.
  - symmetry in E1. pose proof (quoted_shape path Eq E1 Hn1) as Hs.
    pose proof (unquote_window [QUOTE] (interior path) [QUOTE]
                  (or_intror eq_refl)) as Hw.
    rewrite <- Hs in Hw. exact Hw.
  - assert (Ei : interior path = path) by (unfold interior; now rewrite Eq).
    rewrite Ei.
    pose proof (unquote_window [] path [] (or_introl eq_refl)) as Hw.
    rewrite app_nil_r in Hw. exact Hw.
Qed.

Lemma get_unquoted_path_none (path : cstring) :
  get_unquoted_path path = None <-> malformed_quoting path.
Proof.
  rewrite get_unquoted_path_cases. unfold malformed_quoting.
  destruct path as [|c t].
  - split; [discriminate|].
    intros [H|[H|(j & Hj & _)]]; try discriminate; [|simpl in Hj; lia].
    now contradiction H.
  - remember (c :: t) as path eqn:Hp.
    assert (Hne : path <> []) by (subst path; discriminate).
    destruct (Bool.eqb (quoted path) (end_quoted path)) eqn:E1;
      cbn [negb orb].
    2:{ split; [|reflexivity]. intros _. left.
        now apply Bool.eqb_false_iff. }
    apply Bool.eqb_prop in E1.
    fold (quoted path).
    destruct (quoted path && (length path =? 1)) eqn:E2.
    { split; [|reflexivity]. intros _. right; left.
      apply andb_true_iff in E2. destruct E2 as [Hq Hl].
      apply Nat.eqb_eq in Hl. subst path. destruct t; [|discriminate].
      apply eqb_char in Hq. change ([c] @ 0) with c in Hq. now subst c. }
    assert (Hn1 : path <> [QUOTE]).
    { intros E. rewrite E in E2. discriminate E2. }
    destruct (unquote_interior path Hne E1 Hn1) as [Hw _].
    rewrite Hw.
    split; [intros H; right; right; exact H|].
    intros [H|[H|H]]; [congruence|contradiction|exact H].
Qed.

(** C9.  The quote parser fails exactly on malformed quoting: an opening
    quote without a closing one or the reverse, the input made of one quote
    character, or a quote inside that no backslash escapes.  Otherwise it
    returns the interior with every backslash-quote pair rewritten to a
    quote and every other character, backslashes included, kept.  The empty
    input gives the empty string. *)
Theorem get_unquoted_path_spec (path : cstring) :
  (get_unquoted_path path = None <-> malformed_quoting path)
  /\ (~ malformed_quoting path ->
      get_unquoted_path path = Some (unescape_quotes (interior path)))
  /\ get_unquoted_path [] = Some [].
Proof.
  split; [apply get_unquoted_path_none|]. split; [|reflexivity].
  intros Hok.
  destruct (get_unquoted_path path) as [r|] eqn:Er.
  2:{ exfalso. apply Hok, get_unquoted_path_none. exact Er. }
  f_equal. rewrite get_unquoted_path_cases in Er.
  destruct path as [|c t]; [now injection Er as <-|].
  remember (c :: t) as path eqn:Hp.
  assert (Hne : path <> []) by (subst path; discriminate).
  destruct (negb (Bool.eqb (quoted path) (end_quoted path))
            || Ascii.eqb (path @ 0) QUOTE && (length path =? 1)) eqn:E;
    [discriminate|].
  apply orb_false_iff in E. destruct E as [E1 E2].
  apply negb_false_iff, Bool.eqb_prop in E1.
  assert (Hn1 : path <> [QUOTE]).
  { intros E. apply Hok. right; left. exact E. }
  destruct (unquote_interior path Hne E1 Hn1) as [_ Hw].
  now apply Hw.
Qed.

Lemma get_unquoted_path_spec_witness :
  let path := [QUOTE] ++ cs "a" ++ [BACKSLASH; QUOTE] ++ cs "b" ++ [QUOTE] in
  ~ malformed_quoting path
  /\ get_unquoted_path path = Some (cs "a" ++ [QUOTE] ++ cs "b").
Proof.
  intros path.
  assert (Hok : ~ malformed_quoting path).
  { intros [H|[H|(j & Hj & Hq & Hb)]].
    - apply H. reflexivity.
    - discriminate H.
    - destruct j as [|[|[|[|j]]]].
      + vm_compute in Hq. discriminate Hq.
      + vm_compute in Hq. discriminate Hq.
      + destruct Hb as [Hb|Hb]; [discriminate Hb|]. now apply Hb.
      + vm_compute in Hq. discriminate Hq.
      + vm_compute in Hj. lia. }
  split; [exact Hok|].
  exact (proj1 (proj2 (get_unquoted_path_spec path)) Hok).
Defined.

Lemma list_pair_ind (P : cstring -> Prop) :
  P [] -> (forall a, P [a]) ->
  (forall a b l, P l -> P (b :: l) -> P (a :: b :: l)) ->
  forall l, P l.
Proof.
  intros H0 H1 H2.
  assert (H : forall l, P l /\ forall a, P (a :: l)).
  { induction l as [|b l [IHl IHbl]]; split; auto. }
  intros l. apply H.
Qed.

Lemma unescape_step (a b : ascii) (t : cstring) :
  unescape_quotes (a :: b :: t)
  = if Ascii.eqb a BACKSLASH && Ascii.eqb b QUOTE
    then b :: unescape_quotes t
    else a :: unescape_quotes (b :: t).
Proof. reflexivity. Qed.

Lemma unescape_snoc (c : ascii) (l : cstring) :
  c <> QUOTE -> unescape_quotes (l ++ [c]) = unescape_quotes l ++ [c].
Proof.
  intros Hc. induction l as [|a|a b l IHl IHbl] using list_pair_ind.
  - reflexivity.
  - simpl app. now rewrite unescape_keep.
  - change ((a :: b :: l) ++ [c]) with (a :: b :: (l ++ [c])).
    rewrite !unescape_step.
    destruct (Ascii.eqb a BACKSLASH && Ascii.eqb b QUOTE).
    + rewrite IHl. reflexivity.
    + change (b :: l ++ [c]) with ((b :: l) ++ [c]).
      rewrite IHbl. reflexivity.
Qed.

Lemma get_unquoted_path_quoted (mid : cstring) :
  (get_unquoted_path ([QUOTE] ++ mid ++ [QUOTE]) = None
   <-> exists j, bare_quote_at mid j)
  /\ (forall r, get_unquoted_path ([QUOTE] ++ mid ++ [QUOTE]) = Some r ->
                r = unescape_quotes mid).
Proof.
  set (path := [QUOTE] ++ mid ++ [QUOTE]).
  assert (Hq : quoted path = true) by reflexivity.
  assert (He : end_quoted path = true).
  { unfold end_quoted, path. rewrite !app_assoc, last_last. reflexivity. }
  assert (Hi : interior path = mid).
  { unfold interior. rewrite Hq. unfold path. simpl tl.
    apply removelast_last. }
  assert (Hn1 : path <> [QUOTE]).
  { unfold path. intros E. apply (f_equal (@length ascii)) in E.
    rewrite !length_app in E. simpl in E. lia. }
  assert (Hne : path <> []) by discriminate.
  assert (E : get_unquoted_path path
              = unquote_loop path (length mid) 1 []).
  { rewrite get_unquoted_path_cases. unfold path at 1. cbn [app].
    fold path. rewrite Hq, He, Hi. cbn [Bool.eqb negb orb b2n].
    fold (quoted path). rewrite Hq. cbn [andb].
    destruct (length path =? 1) eqn:El; [|reflexivity].
    apply Nat.eqb_eq in El. unfold path in El. rewrite !length_app in El.
    simpl in El. lia. }
  rewrite E.
  pose proof (unquote_interior path Hne (eq_trans Hq (eq_sym He)) Hn1) as Hw.
  rewrite Hi, Hq in Hw. exact Hw.
Qed.

(** C10.  A closing quote right after a backslash still closes the quoted
    string: the backslash stays in the output and is not taken for an
    escape.  On quote, a, backslash, quote the parser returns a followed by
    a backslash; in general, putting a backslash before the closing quote
    appends a backslash to the result and changes nothing else. *)
Theorem get_unquoted_path_backslash_before_closing_quote :
  get_unquoted_path ([QUOTE] ++ cs "a" ++ [BACKSLASH; QUOTE])
  = Some (cs "a" ++ [BACKSLASH])
  /\ forall body,
      get_unquoted_path ([QUOTE] ++ (body ++ [BACKSLASH]) ++ [QUOTE])
      = option_map (fun r => r ++ [BACKSLASH])
          (get_unquoted_path ([QUOTE] ++ body ++ [QUOTE])).
Proof.
  split; [reflexivity|].
  intros body.
  destruct (get_unquoted_path_quoted (body ++ [BACKSLASH])) as [N1 S1].
  destruct (get_unquoted_path_quoted body) as [N2 S2].
  destruct (get_unquoted_path ([QUOTE] ++ (body ++ [BACKSLASH]) ++ [QUOTE]))
    as [r1|] eqn:E1;
    destruct (get_unquoted_path ([QUOTE] ++ body ++ [QUOTE]))
    as [r2|] eqn:E2; simpl.
  - rewrite (S1 r1 eq_refl), (S2 r2 eq_refl).
    now rewrite unescape_snoc by exact backslash_not_quote.
  - exfalso. destruct (proj1 N2 eq_refl) as (j & Hj & Hq & Hb).
    enough (H : Some r1 = None) by discriminate H.
    apply N1. exists j. unfold bare_quote_at. rewrite length_app.
    rewrite !char_at_app_l by lia.
    split; [lia|]. split; [exact Hq|].
    destruct Hb as [Hb|Hb]; [now left|right; exact Hb].
  - exfalso. destruct (proj1 N1 eq_refl) as (j & Hj & Hq & Hb).
    rewrite length_app in Hj. simpl in Hj.
    assert (Hlt : j < length body).
    { destruct (Nat.eq_dec j (length body)) as [->|]; [|lia].
      rewrite char_at_last in Hq. now apply backslash_not_quote in Hq. }
    enough (H : Some r2 = None) by discriminate H.
    apply N2. exists j. rewrite char_at_app_l in Hq by lia.
    split; [exact Hlt|]. split; [exact Hq|].
    destruct Hb as [Hb|Hb]; [now left|right].
    rewrite char_at_app_l in Hb by lia. exact Hb.
  - reflexivity.
Qed.

(** ** The relative-path test *)

Lemma path_is_relative_null_or_empty (p : platform) :
  path_is_relative p None = 1%Z /\ path_is_relative p (Some []) = 1%Z.
Proof. destruct p; split; reflexivity. Qed.

Lemma path_is_relative_leading_separator (p : platform) (f : cstring) :
  path_is_relative p (Some (PATH_SEPARATOR p ++ f)) = 0%Z
  /\ path_is_relative p (Some (SLASH :: f)) = 0%Z.
Proof. destruct p; split; reflexivity. Qed.

Lemma path_is_relative_drive_prefix (c x : ascii) (f : cstring) :
  TOR_ISALPHA c = true ->
  path_is_relative Win32 (Some (c :: COLON :: BACKSLASH :: x :: f)) = 0%Z.
Proof.
  intros Hc. unfold path_is_relative.
  change ((c :: COLON :: BACKSLASH :: x :: f) @ 0) with c.
  destruct (Ascii.eqb c SLASH); [reflexivity|].
  destruct (Ascii.eqb c BACKSLASH); [reflexivity|].
  rewrite Hc. reflexivity.
Qed.

(** C7.  On Windows the bare drive root, a letter, a colon and a backslash
    with nothing after them, is reported as relative, although the same
    three characters followed by anything are reported as absolute: the
    length test asks for more than three characters. *)
Theorem path_is_relative_bare_drive_root :
  path_is_relative Win32 (Some (cs "C:" ++ [BACKSLASH])) = 1%Z
  /\ path_is_relative Win32 (Some (cs "C:" ++ [BACKSLASH] ++ cs "x")) = 0%Z
  /\ clean_fname_for_stat Win32 (cs "C:" ++ [BACKSLASH])
     = cs "C:" ++ [BACKSLASH].
Proof. repeat split. Qed.

(** ** The parent directory *)

Lemma parent_loop_trailing (p : platform) (s seps : cstring) :
  s <> [] -> Forall (fun c => is_sep p c = true) seps ->
  parent_loop p (length (s ++ seps)) (s ++ seps) true
  = parent_loop p (length s) s true.
Proof.
  intros Hs. induction seps as [|c seps IH] using rev_ind; intros Hall.
  - now rewrite app_nil_r.
  - apply Forall_app in Hall. destruct Hall as [Hseps Hc].
    inversion Hc as [|? ? Hcs _]. subst.
    rewrite app_assoc, length_app. simpl length.
    rewrite Nat.add_1_r. cbn [parent_loop].
    rewrite char_at_last, Hcs.
    destruct (length (s ++ seps) =? 0) eqn:E.
    + apply Nat.eqb_eq in E. rewrite length_app in E.
      destruct s; [contradiction|simpl in E; lia].
    + cbn [negb].
      rewrite firstn_app, firstn_all, Nat.sub_diag. simpl firstn.
      rewrite app_nil_r. now apply IH.
Qed.

Lemma drive_prefix_trailing (p : platform) (s seps : cstring) :
  s <> [] -> Forall (fun c => is_sep p c = true) seps ->
  drive_prefix p (s ++ seps) = drive_prefix p s.
Proof.
  intros Hs Hall. destruct p; [reflexivity|].
  unfold drive_prefix.
  destruct s as [|a [|b s]]; [contradiction| |reflexivity].
  change (([a] ++ seps) @ 0) with a. change ([a] @ 0) with a.
  destruct (negb (Ascii.eqb a NUL)); [|reflexivity]. cbn [andb].
  change ([a] @ 1) with NUL.
  destruct seps as [|c seps]; [reflexivity|].
  change (([a] ++ c :: seps) @ 1) with c.
  inversion Hall as [|? ? Hc _]. subst. simpl in Hc.
  destruct (Ascii.eqb c COLON) eqn:E; [|reflexivity].
  apply eqb_char in E. subst c. discriminate Hc.
Qed.

(** C6.  The parent of "/a/b/c" is "/a/b" and the parent of "/" is "/",
    both with status 0; "abc" has no parent, status -1.  Separators at the
    end of the name are cut off and play no part in finding the parent:
    with or without them the call gives the same status and the same
    buffer, as long as something other than a drive prefix comes before
    them. *)
Theorem get_parent_directory_spec (p : platform) :
  get_parent_directory p (cs "/a/b/c") = (0%Z, cs "/a/b")
  /\ get_parent_directory p (cs "/") = (0%Z, cs "/")
  /\ get_parent_directory p (cs "abc") = ((-1)%Z, cs "abc")
  /\ forall s seps,
      drive_prefix p s < length s ->
      Forall (fun c => is_sep p c = true) seps ->
      get_parent_directory p (s ++ seps) = get_parent_directory p s.
Proof.
  split; [destruct p; reflexivity|].
  split; [destruct p; reflexivity|].
  split; [destruct p; reflexivity|].
  intros s seps Hd Hall.
  assert (Hs : s <> []) by (destruct s; [simpl in Hd; lia|discriminate]).
  unfold get_parent_directory.
  rewrite (drive_prefix_trailing p s seps Hs Hall).
  set (d := drive_prefix p s) in *.
  rewrite skipn_app, firstn_app.
  replace (d - length s) with 0 by lia.
  rewrite skipn_O, firstn_O, app_nil_r.
  rewrite parent_loop_trailing; [reflexivity| |exact Hall].
  intros E. apply (f_equal (@length ascii)) in E.
  rewrite length_skipn in E. simpl in E. lia.
Qed.

Lemma get_parent_directory_spec_witness :
  Forall (fun c => is_sep Posix c = true) (cs "//")
  /\ get_parent_directory Posix (cs "/a/b" ++ cs "//")
     = get_parent_directory Posix (cs "/a/b")
  /\ get_parent_directory Posix (cs "/a/b//") = (0%Z, cs "/a").
Proof.
  assert (H : Forall (fun c => is_sep Posix c = true) (cs "//")).
  { repeat constructor. }
  split; [exact H|]. split; [|reflexivity].
  apply (get_parent_directory_spec Posix); [simpl; lia|exact H].
Defined.

(** ** The call log *)

Lemma value_bind {A B : Type} (m : io A) (f : A -> io B) :
  value (bind m f) = value (f (value m)).
Proof.
  unfold bind, value. destruct m as [a l1]. simpl.
  now destruct (f a).
Qed.


Lemma io_eta {A : Type} (m : io A) : m = (value m, calls m).
Proof. now destruct m. Qed.

(** ** The manual backend *)

Section ManualBackend.

Variable fs : filesystem.

(** One level of [tor_glob_win32], with the recursive calls left as
    they are. *)
Lemma tor_glob_win32_unfold (n : nat) (pattern : cstring) :
  tor_glob_win32 fs (S n) pattern =
  let '(is_glob, prev_sep, curr_sep) := glob_fragment pattern in
  if negb is_glob then
    bind (add_non_glob_path fs Win32 pattern [])
      (fun r => let '(ok, results) := r in
                ret (Finished (if ok then Some results else None)))
  else
    bind (unglob_win32 fs pattern prev_sep curr_sep)
      (fun unglobbed_paths =>
         match unglobbed_paths with
         | None => ret (Finished None)
         | Some paths =>
             bind (expand_each (tor_glob_win32 fs n)
                     (glob_suffix pattern curr_sep) paths [])
               (fun r =>
                  match r with
                  | None => ret OutOfFuel
                  | Some (error_found, results) =>
                      ret (Finished (if (error_found : bool) then None
                                     else Some results))
                  end)
         end).
Proof. reflexivity. Qed.

Lemma is_glob_of_fragment (pattern : cstring) (k i : nat) (g : bool)
  (prev_sep curr_sep : Z) :
  fst (fst (find_glob_fragment pattern k i g prev_sep curr_sep))
  = g || has_glob_loop Win32 pattern k i.
Proof.
  revert i g prev_sep curr_sep.
  induction k as [|k IH]; intros i g prev_sep curr_sep;
    cbn [find_glob_fragment has_glob_loop].
  - now rewrite orb_false_r.
  - destruct (IS_GLOB_CHAR Win32 pattern i) eqn:Eg.
    + rewrite !orb_true_r.
      destruct (_ || _); [reflexivity|].
      rewrite IH. reflexivity.
    + rewrite !orb_false_r.
      destruct (_ || _).
      * destruct g; [reflexivity|].
        rewrite IH. reflexivity.
      * rewrite IH. reflexivity.
Qed.

Lemma glob_fragment_is_glob (pattern : cstring) :
  fst (fst (glob_fragment pattern)) = has_glob Win32 pattern.
Proof. unfold glob_fragment. now rewrite is_glob_of_fragment. Qed.

(** The base case: a pattern without metacharacters. *)
Lemma tor_glob_win32_non_glob (n : nat) (pattern : cstring) :
  has_glob Win32 pattern = false ->
  tor_glob_win32 fs (S n) pattern =
  (match file_status fs pattern with
   | FN_ERROR => Finished None
   | FN_NOENT => Finished (Some [])
   | _ => Finished (Some [clean_fname_for_stat Win32 pattern])
   end, [StatCall pattern]).
Proof.
  intros Hg. rewrite tor_glob_win32_unfold.
  pose proof (glob_fragment_is_glob pattern) as Hf.
  destruct (glob_fragment pattern) as [[g prev_sep] curr_sep].
  simpl in Hf. rewrite Hf, Hg. cbn [negb].
  unfold add_non_glob_path, do_file_status, bind, ret.
  destruct (file_status fs pattern); reflexivity.
Qed.

(** The fragment case, in terms of the values of the parts. *)
Lemma tor_glob_win32_glob_value (n : nat) (pattern : cstring)
  (prev_sep curr_sep : Z) :
  glob_fragment pattern = (true, prev_sep, curr_sep) ->
  value (tor_glob_win32 fs (S n) pattern) =
  match value (unglob_win32 fs pattern prev_sep curr_sep) with
  | None => Finished None
  | Some paths =>
      match value (expand_each (tor_glob_win32 fs n)
                     (glob_suffix pattern curr_sep) paths []) with
      | None => OutOfFuel
      | Some (error_found, results) =>
          Finished (if (error_found : bool) then None else Some results)
      end
  end.
Proof.
  intros Hf. rewrite tor_glob_win32_unfold, Hf. cbn [negb].
  rewrite value_bind.
  destruct (value (unglob_win32 fs pattern prev_sep curr_sep)) as [paths|];
    [|reflexivity].
  rewrite value_bind.
  destruct (value (expand_each _ _ _ _)) as [[e r]|]; reflexivity.
Qed.

Lemma unglob_win32_value (pattern : cstring) (prev_sep curr_sep : Z) :
  value (unglob_win32 fs pattern prev_sep curr_sep) =
  let dir := path_until_glob pattern prev_sep in
  if is_file (file_status fs dir) then Some []
  else
    match tor_listdir fs dir with
    | None => None
    | Some fl =>
        Some (value (unglob_entries fs pattern dir curr_sep fl []))
    end.
Proof.
  unfold unglob_win32. cbv zeta. rewrite value_bind.
  unfold do_file_status at 1. cbn [value fst].
  destruct (is_file (file_status fs (path_until_glob pattern prev_sep)));
    [reflexivity|].
  cbn [negb]. rewrite value_bind. unfold do_listdir. cbn [value fst].
  destruct (tor_listdir fs (path_until_glob pattern prev_sep));
    [|reflexivity].
  rewrite value_bind. reflexivity.
Qed.

Lemma enumeration_fails_value (q : cstring) (n : nat) :
  enumeration_fails fs q ->
  value (tor_glob_win32 fs (S n) q) = Finished None.
Proof.
  intros (prev_sep & curr_sep & Hf & Hfile & Hlist).
  rewrite (tor_glob_win32_glob_value n q prev_sep curr_sep Hf).
  rewrite unglob_win32_value. cbv zeta. now rewrite Hfile, Hlist.
Qed.

(** *** The loop over the unglobbed paths *)

Section ExpandEach.

Variable rec : cstring -> io outcome.
Variable suffix : cstring.

Lemma expand_each_cons (current_path : cstring) (rest results : list cstring) :
  expand_each rec suffix (current_path :: rest) results =
  bind (rec (path_join current_path suffix))
    (fun opened_next =>
       match opened_next with
       | OutOfFuel => ret None
       | Finished None => ret (Some (true, results))
       | Finished (Some l) => expand_each rec suffix rest (results ++ l)
       end).
Proof. reflexivity. Qed.

Lemma expand_each_success (paths results res : list cstring) :
  value (expand_each rec suffix paths results) = Some (false, res) ->
  exists parts,
    Forall2 (fun p part =>
               value (rec (path_join p suffix)) = Finished (Some part))
      paths parts
    /\ res = results ++ concat parts.
Proof.
  revert results. induction paths as [|p paths IH]; intros results H.
  - injection H as <-. exists []. split; [constructor|].
    now rewrite app_nil_r.
  - rewrite expand_each_cons, value_bind in H.
    destruct (value (rec (path_join p suffix))) as [|[l|]] eqn:Ep;
      try discriminate H.
    destruct (IH _ H) as (parts & Hall & ->).
    exists (l :: parts). split; [now constructor|].
    simpl. now rewrite app_assoc.
Qed.


Lemma expand_each_finishes (paths results : list cstring) :
  (forall p, In p paths ->
             value (rec (path_join p suffix)) <> OutOfFuel) ->
  value (expand_each rec suffix paths results) <> None.
Proof.
  revert results. induction paths as [|p paths IH]; intros results H.
  - discriminate.
  - rewrite expand_each_cons, value_bind.
    destruct (value (rec (path_join p suffix))) as [|[l|]] eqn:Ep.
    + exfalso. apply (H p); [now left|exact Ep].
    + apply IH. intros q Hq. apply H. now right.
    + discriminate.
Qed.

Lemma expand_each_found (paths results : list cstring) (p : cstring) :
  In p paths ->
  value (rec (path_join p suffix)) = Finished None ->
  forall res, value (expand_each rec suffix paths results)
              <> Some (false, res).
Proof.
  intros Hin Hp res H.
  destruct (expand_each_success _ _ _ H) as (parts & Hall & _).
  clear H. induction Hall as [|q part paths parts Hq Hall IH];
    [contradiction|].
  destruct Hin as [->|Hin]; [congruence|now apply IH].
Qed.

End ExpandEach.

Lemma expand_each_mono (rec1 rec2 : cstring -> io outcome)
  (suffix : cstring) :
  (forall q r, value (rec1 q) = Finished r -> rec2 q = rec1 q) ->
  forall paths results,
    value (expand_each rec1 suffix paths results) <> None ->
    expand_each rec2 suffix paths results
    = expand_each rec1 suffix paths results.
Proof.
  intros Hrec. induction paths as [|p paths IH]; intros results H.
  - reflexivity.
  - rewrite !expand_each_cons. rewrite expand_each_cons, value_bind in H.
    destruct (value (rec1 (path_join p suffix))) as [|r] eqn:Ep.
    + now contradiction H.
    + rewrite (Hrec _ _ Ep).
      rewrite (io_eta (rec1 (path_join p suffix))), Ep.
      destruct r as [l|]; [|reflexivity].
      unfold bind. rewrite IH by exact H. reflexivity.
Qed.

(** *** More depth does not change a finished run *)

Lemma tor_glob_win32_step_mono (n : nat) :
  forall pattern r,
    value (tor_glob_win32 fs n pattern) = Finished r ->
    tor_glob_win32 fs (S n) pattern = tor_glob_win32 fs n pattern.
Proof.
  induction n as [|n IH]; intros pattern r H; [discriminate H|].
  rewrite (tor_glob_win32_unfold (S n)), (tor_glob_win32_unfold n).
  rewrite tor_glob_win32_unfold in H.
  destruct (glob_fragment pattern) as [[g prev_sep] curr_sep].
  destruct (negb g); [reflexivity|].
  rewrite value_bind in H.
  rewrite (io_eta (unglob_win32 fs pattern prev_sep curr_sep)).
  destruct (value (unglob_win32 fs pattern prev_sep curr_sep))
    as [paths|]; [|reflexivity].
  unfold bind at 1 3. rewrite value_bind in H.
  rewrite (expand_each_mono (tor_glob_win32 fs n) (tor_glob_win32 fs (S n)));
    [reflexivity|exact IH|].
  intros E. rewrite E in H. discriminate H.
Qed.

Lemma tor_glob_win32_mono (n m : nat) (pattern : cstring)
  (r : option (list cstring)) :
  n <= m ->
  value (tor_glob_win32 fs n pattern) = Finished r ->
  tor_glob_win32 fs m pattern = tor_glob_win32 fs n pattern.
Proof.
  intros Hle H. induction Hle as [|m Hle IH]; [reflexivity|].
  rewrite <- IH. apply (tor_glob_win32_step_mono m pattern r).
  now rewrite IH.
Qed.

(** *** A successful run covers every recursive call *)





End ManualBackend.

(** ** Errors and empty results of the manual backend *)

Section ManualOutcomes.

Variable fs : filesystem.


Lemma unglob_win32_on_file (pattern : cstring) (prev_sep curr_sep : Z) :
  is_file (file_status fs (path_until_glob pattern prev_sep)) = true ->
  unglob_win32 fs pattern prev_sep curr_sep
  = (Some [], [StatCall (path_until_glob pattern prev_sep)]).
Proof.
  intros H. unfold unglob_win32, do_file_status, bind. cbv zeta.
  rewrite H. reflexivity.
Qed.


(** Every path of a result is the cleaned name of an existing path. *)
Lemma results_are_cleaned (n : nat) :
  forall pattern results,
    value (tor_glob_win32 fs n pattern) = Finished (Some results) ->
    forall e, In e results ->
      exists x, e = clean_fname_for_stat Win32 x
                /\ file_status fs x <> FN_ERROR
                /\ file_status fs x <> FN_NOENT.
Proof.
  induction n as [|n IH]; intros pattern results H e He;
    [discriminate H|].
  pose proof (glob_fragment_is_glob pattern) as Hg.
  destruct (glob_fragment pattern) as [[g prev_sep] curr_sep] eqn:Hf.
  simpl in Hg. subst g.
  destruct (has_glob Win32 pattern) eqn:Hglob.
  - rewrite (tor_glob_win32_glob_value fs n pattern _ _ Hf) in H.
    destruct (value (unglob_win32 fs pattern prev_sep curr_sep))
      as [paths|]; [|discriminate H].
    destruct (value (expand_each _ _ _ _)) as [[err res]|] eqn:Ee;
      [|discriminate H].
    destruct err; [discriminate H|]. injection H as ->.
    destruct (expand_each_success _ _ _ _ _ Ee) as (parts & Hall & ->).
    simpl in He. apply in_concat in He. destruct He as (part & Hpart & He).
    clear Ee. induction Hall as [|p l paths parts Hp Hall IHall];
      [contradiction|].
    destruct Hpart as [->|Hpart]; [|now apply IHall].
    exact (IH _ _ Hp e He).
  - rewrite (tor_glob_win32_non_glob fs n pattern Hglob) in H.
    cbn [value fst] in H. exists pattern.
    destruct (file_status fs pattern) eqn:Es; try discriminate H;
      injection H as <-; simpl in He; try contradiction;
      destruct He as [<-|[]];
      (split; [reflexivity|split; discriminate]).
Qed.

End ManualOutcomes.

(** ** Zero matches and failure *)

Lemma native_outcome (g : glob_facility) (pattern : cstring) :
  UnixBuild.tor_glob g pattern =
  let r := fst (glob g pattern (UnixBuild.glob_flags g)) in
  if (r =? GLOB_NOMATCH g)%Z then Some []
  else if (r =? 0)%Z
       then Some (map UnixBuild.strip_match
                    (snd (glob g pattern (UnixBuild.glob_flags g))))
       else None.
Proof.
  unfold UnixBuild.tor_glob.
  destruct (glob g pattern (UnixBuild.glob_flags g)) as [r gl_pathv].
  cbn [fst snd]. cbv zeta.
  destruct (r =? GLOB_NOMATCH g)%Z; [reflexivity|].
  now destruct (r =? 0)%Z.
Qed.

(** ** The base case of the manual backend *)

Lemma clean_fname_for_stat_no_sep (name : cstring) :
  ends_with_sep Win32 name = false ->
  clean_fname_for_stat Win32 name = name.
Proof.
  unfold ends_with_sep, clean_fname_for_stat. intros H.
  destruct name as [|c t]; [reflexivity|].
  remember (c :: t) as name eqn:En.
  assert (Hne : name <> []) by (subst; discriminate).
  replace (length name =? 0) with false by (subst; reflexivity).
  rewrite (char_at_last_index name Hne).
  unfold is_sep in H. rewrite orb_comm in H. now rewrite H.
Qed.

(** The claim C3 taken literally, with the path itself as the one element,
    fails on a directory named with a trailing separator. *)
Lemma non_glob_match_is_not_the_pattern :
  let pattern := cs "d" ++ [BACKSLASH] in
  has_glob Win32 pattern = false
  /\ file_status tree_fs pattern = FN_DIR
  /\ value (tor_glob_win32 tree_fs 1 pattern) = Finished (Some [cs "d"])
  /\ value (tor_glob_win32 tree_fs 1 pattern) <> Finished (Some [pattern]).
Proof.
  repeat split. vm_compute. discriminate.
Qed.

(** C3, amended.  For a pattern without metacharacters the engine asks for
    the status of the pattern, and makes no other call.  The status
    [FN_ERROR] gives the null pointer, [FN_NOENT] the empty list, and any
    other status the list of one element, which is the pattern after
    [clean_fname_for_stat]; that is the pattern itself when it does not end
    with a separator. *)
Theorem tor_glob_win32_base_case (fs : filesystem) (n : nat)
  (pattern : cstring) :
  has_glob Win32 pattern = false ->
  calls (tor_glob_win32 fs (S n) pattern) = [StatCall pattern]
  /\ (file_status fs pattern = FN_ERROR ->
      value (tor_glob_win32 fs (S n) pattern) = Finished None)
  /\ (file_status fs pattern = FN_NOENT ->
      value (tor_glob_win32 fs (S n) pattern) = Finished (Some []))
  /\ (file_status fs pattern <> FN_ERROR ->
      file_status fs pattern <> FN_NOENT ->
      value (tor_glob_win32 fs (S n) pattern)
      = Finished (Some [clean_fname_for_stat Win32 pattern]))
  /\ (ends_with_sep Win32 pattern = false ->
      clean_fname_for_stat Win32 pattern = pattern).
Proof.
  intros Hg. rewrite (tor_glob_win32_non_glob fs n pattern Hg).
  cbn [value calls fst snd].
  split; [reflexivity|]. split; [now intros ->|]. split; [now intros ->|].
  split; [|apply clean_fname_for_stat_no_sep].
  intros H1 H2. now destruct (file_status fs pattern).
Qed.

Lemma tor_glob_win32_base_case_witness :
  has_glob Win32 (cs "d\x\f") = false
  /\ calls (tor_glob_win32 tree_fs 1 (cs "d\x\f")) = [StatCall (cs "d\x\f")]
  /\ value (tor_glob_win32 tree_fs 1 (cs "d\x\f"))
     = Finished (Some [cs "d\x\f"]).
Proof.
  assert (Hg : has_glob Win32 (cs "d\x\f") = false) by reflexivity.
  destruct (tor_glob_win32_base_case tree_fs 0 (cs "d\x\f") Hg)
    as (Hcalls & _ & _ & Hval & Hclean).
  split; [exact Hg|]. split; [exact Hcalls|].
  rewrite Hval by discriminate. rewrite Hclean by reflexivity.
  reflexivity.
Defined.

(** ** Listing the directory of the first fragment *)

(** The claim C4 fails where the directory before the fragment is missing:
    the only calls are the status query, which reports no error, and the
    listing, which fails, and the engine returns the null pointer. *)
Lemma missing_prefix_directory_is_an_error :
  let pattern := cs "nodir\*" in
  glob_fragment pattern = (true, 5%Z, 6%Z)
  /\ path_until_glob pattern 5 = cs "nodir"
  /\ file_status empty_fs (cs "nodir") = FN_NOENT
  /\ tor_listdir empty_fs (cs "nodir") = None
  /\ WindowsBuild.tor_glob empty_fs 1 (cs "nodir/*")
     = (Finished None, [StatCall (cs "nodir"); ListCall (cs "nodir")]).
Proof. repeat split. Qed.

(** C4, amended.  When the directory named by the prefix before the first
    fragment with globs cannot be listed, the engine returns the null
    pointer.  Only when that prefix names an existing file that is not a
    directory is the outcome the empty list, and then the directory is not
    listed at all: the status query is the only call. *)
Theorem tor_glob_win32_prefix_listing (fs : filesystem) (n : nat)
  (pattern : cstring) (prev_sep curr_sep : Z) :
  glob_fragment pattern = (true, prev_sep, curr_sep) ->
  (is_file (file_status fs (path_until_glob pattern prev_sep)) = false ->
   tor_listdir fs (path_until_glob pattern prev_sep) = None ->
   value (tor_glob_win32 fs (S n) pattern) = Finished None)
  /\ (is_file (file_status fs (path_until_glob pattern prev_sep)) = true ->
      tor_glob_win32 fs (S n) pattern
      = (Finished (Some []),
         [StatCall (path_until_glob pattern prev_sep)])).
Proof.
  intros Hf. split.
  - intros Hfile Hlist. apply enumeration_fails_value.
    now exists prev_sep, curr_sep.
  - intros Hfile. rewrite tor_glob_win32_unfold, Hf. cbn [negb].
    rewrite (unglob_win32_on_file fs pattern prev_sep curr_sep Hfile).
    reflexivity.
Qed.

Lemma tor_glob_win32_prefix_listing_witness :
  glob_fragment (cs "d\y\*") = (true, 3%Z, 4%Z)
  /\ value (tor_glob_win32 tree_fs 1 (cs "d\y\*")) = Finished None
  /\ glob_fragment (cs "d\x\f\*") = (true, 5%Z, 6%Z)
  /\ tor_glob_win32 tree_fs 1 (cs "d\x\f\*")
     = (Finished (Some []), [StatCall (cs "d\x\f")]).
Proof.
  assert (H1 : glob_fragment (cs "d\y\*") = (true, 3%Z, 4%Z))
    by reflexivity.
  assert (H2 : glob_fragment (cs "d\x\f\*") = (true, 5%Z, 6%Z))
    by reflexivity.
  split; [exact H1|]. split.
  - apply (proj1 (tor_glob_win32_prefix_listing tree_fs 0 _ _ _ H1));
      reflexivity.
  - split; [exact H2|].
    apply (proj2 (tor_glob_win32_prefix_listing tree_fs 0 _ _ _ H2)).
    reflexivity.
Defined.

(** ** Trailing separators of the matches *)

Lemma removelast_firstn_pred (s : cstring) :
  firstn (length s - 1) s = removelast s.
Proof.
  rewrite removelast_firstn_len. f_equal. lia.
Qed.

Lemma strip_match_snoc (s : cstring) :
  UnixBuild.strip_match (s ++ [SLASH]) = s.
Proof.
  unfold UnixBuild.strip_match.
  rewrite length_app. simpl length.
  replace (length s + 1 - 1) with (length s) by lia.
  rewrite char_at_last.
  replace (0 <? length s + 1) with true by (symmetry; apply Nat.ltb_lt; lia).
  cbn [andb]. replace (Ascii.eqb SLASH SLASH) with true by reflexivity.
  rewrite firstn_app, firstn_all, Nat.sub_diag. simpl.
  apply app_nil_r.
Qed.

Lemma strip_match_cases (m : cstring) :
  UnixBuild.strip_match m
  = if ends_with_sep Posix m then removelast m else m.
Proof.
  unfold UnixBuild.strip_match, ends_with_sep.
  destruct m as [|c t]; [reflexivity|].
  remember (c :: t) as m eqn:Em.
  assert (Hne : m <> []) by (subst; discriminate).
  replace (0 <? length m) with true by (subst; reflexivity).
  rewrite (char_at_last_index m Hne). cbn [andb is_sep].
  now rewrite removelast_firstn_pred.
Qed.

Lemma clean_fname_for_stat_cases (name : cstring) :
  clean_fname_for_stat Win32 name
  = if ends_with_sep Win32 name
    then if (length name =? 1)
            || ((length name =? 3) && Ascii.eqb (name @ 1) COLON)
         then name else removelast name
    else name.
Proof.
  unfold clean_fname_for_stat, ends_with_sep.
  destruct name as [|c t]; [reflexivity|].
  remember (c :: t) as name eqn:En.
  assert (Hne : name <> []) by (subst; discriminate).
  replace (length name =? 0) with false by (subst; reflexivity).
  rewrite (char_at_last_index name Hne). cbn [is_sep].
  rewrite (orb_comm (Ascii.eqb (last name NUL) SLASH)).
  now rewrite removelast_firstn_pred.
Qed.

Lemma strip_match_trailing (m : cstring) :
  ends_with_sep Posix (UnixBuild.strip_match m) = true ->
  ends_with_two_seps Posix m = true.
Proof.
  rewrite strip_match_cases. unfold ends_with_two_seps.
  destruct (ends_with_sep Posix m) eqn:E.
  - now intros ->.
  - congruence.
Qed.

Lemma clean_fname_for_stat_trailing (name : cstring) :
  ends_with_sep Win32 (clean_fname_for_stat Win32 name) = true ->
  length name = 1
  \/ (length name = 3 /\ name @ 1 = COLON)
  \/ ends_with_two_seps Win32 name = true.
Proof.
  rewrite clean_fname_for_stat_cases. unfold ends_with_two_seps.
  destruct (ends_with_sep Win32 name) eqn:E; [|congruence].
  destruct (length name =? 1) eqn:E1.
  { intros _. left. now apply Nat.eqb_eq. }
  destruct ((length name =? 3) && Ascii.eqb (name @ 1) COLON) eqn:E3.
  { intros _. right; left. apply andb_true_iff in E3.
    destruct E3 as [H3 Hc]. split; [now apply Nat.eqb_eq|now apply eqb_char]. }
  cbn [orb]. intros ->. now right; right.
Qed.

(** The invariant of C5 fails for a match that ends with two separators:
    one of them is removed, the other stays, and the element is not a lone
    separator. *)
Lemma one_trailing_separator_remains :
  UnixBuild.tor_glob double_slash_glob (cs "a//") = Some [cs "a/"]
  /\ ends_with_sep Posix (cs "a/") = true
  /\ cs "a/" <> cs "/".
Proof. repeat split. discriminate. Qed.

(** C5, amended.  Each element of a result is a match with one trailing
    separator removed, if there was one.  In the native backend the
    elements are the matches of the facility after removing one trailing
    slash, so that an element still ends with a slash only when the match
    ended with two.  In the manual backend each element is the name of an
    existing path after [clean_fname_for_stat], so that an element ends
    with a separator only when it is one character long, or is three
    characters long with a colon in the middle, or the name ended with two
    separators. *)
Theorem match_sets_lose_one_trailing_separator :
  (forall s, UnixBuild.strip_match (s ++ [SLASH]) = s)
  /\ (forall m, ends_with_sep Posix m = false -> UnixBuild.strip_match m = m)
  /\ (forall g pattern results,
        UnixBuild.tor_glob g pattern = Some results ->
        forall e, In e results ->
          exists m,
            In m (snd (glob g pattern (UnixBuild.glob_flags g)))
            /\ e = UnixBuild.strip_match m
            /\ (ends_with_sep Posix e = true ->
                ends_with_two_seps Posix m = true))
  /\ (forall fs n pattern results,
        value (WindowsBuild.tor_glob fs n pattern) = Finished (Some results) ->
        forall e, In e results ->
          exists x,
            e = clean_fname_for_stat Win32 x
            /\ file_status fs x <> FN_ERROR
            /\ file_status fs x <> FN_NOENT
            /\ (ends_with_sep Win32 e = true ->
                length x = 1
                \/ (length x = 3 /\ x @ 1 = COLON)
                \/ ends_with_two_seps Win32 x = true)).
Proof.
  split; [exact strip_match_snoc|]. split; [|split].
  - intros m H. rewrite strip_match_cases. now rewrite H.
  - intros g pattern results. rewrite native_outcome. cbv zeta.
    destruct (_ =? GLOB_NOMATCH g)%Z.
    { intros H. injection H as <-. contradiction. }
    destruct (_ =? 0)%Z; [|discriminate].
    intros H e He. injection H as <-.
    apply in_map_iff in He. destruct He as (m & <- & Hm).
    exists m. split; [exact Hm|]. split; [reflexivity|].
    apply strip_match_trailing.
  - intros fs n pattern results H e He.
    destruct (results_are_cleaned fs n _ _ H e He) as (x & -> & H1 & H2).
    exists x. repeat split; try assumption.
    apply clean_fname_for_stat_trailing.
Qed.

Lemma match_sets_lose_one_trailing_separator_witness :
  UnixBuild.strip_match (cs "a") = cs "a"
  /\ (exists m,
         In m (snd (glob double_slash_glob (cs "a//")
                      (UnixBuild.glob_flags double_slash_glob)))
         /\ cs "a/" = UnixBuild.strip_match m
         /\ (ends_with_sep Posix (cs "a/") = true ->
             ends_with_two_seps Posix m = true))
  /\ exists x,
      cs "d\x\f" = clean_fname_for_stat Win32 x
      /\ file_status tree_fs x <> FN_ERROR
      /\ file_status tree_fs x <> FN_NOENT
      /\ (ends_with_sep Win32 (cs "d\x\f") = true ->
          length x = 1
          \/ (length x = 3 /\ x @ 1 = COLON)
          \/ ends_with_two_seps Win32 x = true).
Proof.
  destruct match_sets_lose_one_trailing_separator
    as (_ & Hkeep & Hnative & Hmanual).
  split; [apply Hkeep; reflexivity|]. split.
  - apply (Hnative double_slash_glob (cs "a//") [cs "a/"] eq_refl).
    now left.
  - apply (Hmanual tree_fs 3 (cs "d/x/*") [cs "d\x\f"] eq_refl).
    now left.
Defined.

(** ** The recursion of the manual backend ends *)

Lemma count_globs_app (a b : cstring) :
  count_globs (a ++ b) = count_globs a + count_globs b.
Proof. unfold count_globs. now rewrite filter_app, length_app. Qed.

Lemma count_globs_zero (s : cstring) :
  (forall j, j < length s -> is_metachar (s @ j) = false) ->
  count_globs s = 0.
Proof.
  induction s as [|c s IH]; intros H; [reflexivity|].
  unfold count_globs. simpl.
  rewrite (H 0 ltac:(simpl; lia) : is_metachar c = false).
  apply IH. intros j Hj. apply (H (S j)). simpl. lia.
Qed.

Lemma count_globs_pos (s : cstring) (j : nat) :
  j < length s -> is_metachar (s @ j) = true -> 0 < count_globs s.
Proof.
  revert j. induction s as [|c s IH]; intros j Hj Hm; [simpl in Hj; lia|].
  unfold count_globs. simpl.
  destruct (is_metachar c) eqn:Ec; [simpl; lia|].
  destruct j as [|j]; [unfold char_at in Hm; simpl in Hm; congruence|].
  apply (IH j); [simpl in Hj; lia|exact Hm].
Qed.

Lemma count_globs_no_glob (s : cstring) :
  has_glob Win32 s = false -> count_globs s = 0.
Proof.
  intros H. apply count_globs_zero. intros j Hj.
  destruct (is_metachar (s @ j)) eqn:E; [|reflexivity].
  assert (Ht : has_glob Win32 s = true); [|congruence].
  unfold has_glob. apply has_glob_loop_true. exists j. split; [lia|exact E].
Qed.

(** What the first loop has established when it stops on a fragment with
    globs: no metacharacter up to [prev_sep], one up to [curr_sep]. *)
Lemma find_glob_fragment_inv (pattern : cstring) (k : nat) :
  forall (i : nat) (g : bool) (prev_sep curr_sep p c : Z),
    i + k = length pattern ->
    (k = 0 -> g = false) ->
    (forall j, (Z.of_nat j <= curr_sep)%Z ->
               is_metachar (pattern @ j) = false) ->
    (g = false -> forall j, j < i -> is_metachar (pattern @ j) = false) ->
    (g = true -> exists j, j < i /\ is_metachar (pattern @ j) = true) ->
    find_glob_fragment pattern k i g prev_sep curr_sep = (true, p, c) ->
    (forall j, (Z.of_nat j <= p)%Z -> is_metachar (pattern @ j) = false)
    /\ (0 <= c < Z.of_nat (length pattern))%Z
    /\ exists j, (Z.of_nat j <= c)%Z /\ is_metachar (pattern @ j) = true.
Proof.
  induction k as [|k IH];
    intros i g prev_sep curr_sep p c Hlen Hk Hcurr Hno Hg H.
  - simpl in H. injection H as Hg' _ _. rewrite Hk in Hg' by reflexivity.
    discriminate Hg'.
  - cbn [find_glob_fragment] in H.
    change (IS_GLOB_CHAR Win32 pattern i) with (is_metachar (pattern @ i)) in H.
    assert (Hg' : g || is_metachar (pattern @ i) = true ->
                  exists j, j < S i /\ is_metachar (pattern @ j) = true).
    { intros E. apply orb_true_iff in E. destruct E as [E|E].
      - destruct (Hg E) as (j & Hj & Hm). exists j. split; [lia|exact Hm].
      - exists i. split; [lia|exact E]. }
    assert (Hno' : g || is_metachar (pattern @ i) = false ->
                   forall j, j < S i -> is_metachar (pattern @ j) = false).
    { intros E j Hj. apply orb_false_iff in E. destruct E as [E1 E2].
      destruct (Nat.eq_dec j i) as [->|Hne]; [exact E2|].
      apply (Hno E1). lia. }
    destruct (Ascii.eqb (pattern @ i) BACKSLASH
              || Ascii.eqb (pattern @ i) SLASH
              || Ascii.eqb (pattern @ (i + 1)) NUL) eqn:Eb.
    + destruct (g || is_metachar (pattern @ i)) eqn:Eg.
      * injection H as <- <-. split; [exact Hcurr|]. split; [lia|].
        destruct (Hg' eq_refl) as (j & Hj & Hm).
        exists j. split; [lia|exact Hm].
      * apply (IH (S i) false curr_sep (Z.of_nat i) p c);
          [lia|reflexivity| |intros _; now apply Hno'|discriminate|exact H].
        intros j Hj. apply (Hno' eq_refl). lia.
    + apply (IH (S i) (g || is_metachar (pattern @ i)) prev_sep curr_sep p c);
        [lia| |exact Hcurr|exact Hno'|exact Hg'|exact H].
      intros ->. exfalso.
      apply orb_false_iff in Eb. destruct Eb as [_ Eb].
      rewrite char_at_end in Eb by lia. discriminate Eb.
Qed.

Lemma glob_fragment_found (pattern : cstring) (prev_sep curr_sep : Z) :
  glob_fragment pattern = (true, prev_sep, curr_sep) ->
  count_globs (path_until_glob pattern prev_sep) = 0
  /\ count_globs (glob_suffix pattern curr_sep) < count_globs pattern.
Proof.
  intros H. unfold glob_fragment in H.
  apply find_glob_fragment_inv in H;
    [|reflexivity|reflexivity|intros j Hj; lia|intros _ j Hj; lia
     |discriminate].
  destruct H as (Hprev & Hc & (j & Hj & Hm)). split.
  - apply count_globs_zero. intros i Hi.
    unfold path_until_glob, tor_strndup in *.
    rewrite length_firstn in Hi.
    rewrite char_at_firstn by lia. apply Hprev.
    destruct (prev_sep <? 1)%Z eqn:E; lia.
  - unfold glob_suffix.
    rewrite <- (firstn_skipn (Z.to_nat (curr_sep + 1)) pattern) at 2.
    rewrite count_globs_app.
    enough (0 < count_globs (firstn (Z.to_nat (curr_sep + 1)) pattern)) by lia.
    apply (count_globs_pos _ j).
    + rewrite length_firstn. lia.
    + rewrite char_at_firstn by lia. exact Hm.
Qed.

Section Termination.

Variable fs : filesystem.
Hypothesis Hlist : glob_free_listings fs.

Lemma unglob_entries_from (pattern dir : cstring) (curr_sep : Z)
  (filenames results : list cstring) (p : cstring) :
  In p (value (unglob_entries fs pattern dir curr_sep filenames results)) ->
  In p results \/ exists f, In f filenames /\ p = path_join dir f.
Proof.
  revert results. induction filenames as [|f fl IH]; intros results H.
  - now left.
  - cbn [unglob_entries] in H. cbv zeta in H.
    rewrite !value_bind in H. apply IH in H.
    destruct H as [H|(f' & Hf' & ->)].
    + destruct (value (do_PathMatchSpec fs _ _)); [|now left].
      apply in_app_or in H. destruct H as [H|[<-|[]]]; [now left|].
      right. exists f. split; [now left|reflexivity].
    + right. exists f'. split; [now right|reflexivity].
Qed.

Lemma count_globs_next_path (pattern : cstring) (prev_sep curr_sep : Z)
  (paths : list cstring) (p : cstring) :
  glob_fragment pattern = (true, prev_sep, curr_sep) ->
  value (unglob_win32 fs pattern prev_sep curr_sep) = Some paths ->
  In p paths ->
  count_globs (path_join p (glob_suffix pattern curr_sep))
  < count_globs pattern.
Proof.
  intros Hf Hu Hin.
  destruct (glob_fragment_found _ _ _ Hf) as [Hdir Hsuffix].
  rewrite unglob_win32_value in Hu. cbv zeta in Hu.
  destruct (is_file _); [injection Hu as <-; contradiction|].
  destruct (tor_listdir fs (path_until_glob pattern prev_sep))
    as [fl|] eqn:El; [|discriminate Hu].
  injection Hu as <-.
  apply unglob_entries_from in Hin.
  destruct Hin as [[]|(f & Hfl & ->)].
  unfold path_join. rewrite !count_globs_app, Hdir.
  rewrite (count_globs_no_glob f (Hlist _ _ _ El Hfl)).
  change (count_globs (PATH_SEPARATOR Win32)) with 0. lia.
Qed.

(** With as much depth as the pattern has metacharacters, and one more,
    the engine returns. *)
Lemma tor_glob_win32_returns_within (n : nat) :
  forall pattern,
    count_globs pattern <= n ->
    value (tor_glob_win32 fs (S n) pattern) <> OutOfFuel.
Proof.
  induction n as [|n IH]; intros pattern Hn.
  - pose proof (glob_fragment_is_glob pattern) as Hg.
    destruct (glob_fragment pattern) as [[g prev_sep] curr_sep] eqn:Hf.
    simpl in Hg. subst g.
    destruct (has_glob Win32 pattern) eqn:Hglob.
    + destruct (glob_fragment_found _ _ _ Hf) as [_ Hlt]. lia.
    + rewrite (tor_glob_win32_non_glob fs 0 pattern Hglob).
      cbn [value fst]. destruct (file_status fs pattern); discriminate.
  - pose proof (glob_fragment_is_glob pattern) as Hg.
    destruct (glob_fragment pattern) as [[g prev_sep] curr_sep] eqn:Hf.
    simpl in Hg. subst g.
    destruct (has_glob Win32 pattern) eqn:Hglob.
    + rewrite (tor_glob_win32_glob_value fs (S n) pattern _ _ Hf).
      destruct (value (unglob_win32 fs pattern prev_sep curr_sep))
        as [paths|] eqn:Hu; [|discriminate].
      destruct (value (expand_each _ _ _ _)) as [[e res]|] eqn:Ee;
        [discriminate|].
      exfalso. revert Ee. apply expand_each_finishes.
      intros p Hp. apply IH.
      pose proof (count_globs_next_path _ _ _ _ p Hf Hu Hp). lia.
    + rewrite (tor_glob_win32_non_glob fs (S n) pattern Hglob).
      cbn [value fst]. destruct (file_status fs pattern); discriminate.
Qed.

Theorem tor_glob_win32_terminates (pattern : cstring) :
  exists r,
    forall n, count_globs pattern < n ->
              value (tor_glob_win32 fs n pattern) = Finished r.
Proof.
  pose proof (tor_glob_win32_returns_within (count_globs pattern) pattern
                (Nat.le_refl _)) as H.
  destruct (value (tor_glob_win32 fs (S (count_globs pattern)) pattern))
    as [|r] eqn:E; [now contradiction H|].
  exists r. intros n Hn.
  rewrite (tor_glob_win32_mono fs (S (count_globs pattern)) n pattern r);
    [exact E|lia|exact E].
Qed.

End Termination.

Lemma count_globs_normalized (pattern : cstring) :
  count_globs (tor_strreplacechar pattern SLASH BACKSLASH)
  = count_globs pattern.
Proof.
  unfold count_globs, tor_strreplacechar.
  induction pattern as [|c t IH]; [reflexivity|].
  cbn [map filter].
  destruct (Ascii.eqb c SLASH) eqn:E.
  - apply eqb_char in E. subst c.
    change (is_metachar BACKSLASH) with false.
    change (is_metachar SLASH) with false. exact IH.
  - destruct (is_metachar c); simpl; now rewrite IH.
Qed.


Lemma tree_fs_glob_free : glob_free_listings tree_fs.
Proof.
  intros dirname entries filename Hl Hin. unfold tree_fs in Hl.
  cbn [tor_listdir] in Hl.
  destruct (cstring_eqb dirname (cs "d")).
  - injection Hl as <-. destruct Hin as [<-|[<-|[]]]; reflexivity.
  - destruct (cstring_eqb dirname (cs "d\x")); [|discriminate Hl].
    injection Hl as <-. destruct Hin as [<-|[]]. reflexivity.
Qed.






(** ** Runs on the example tree *)

(** Of the two directories under [d] only [x] holds [f]; the directory [y],
    which cannot be listed, is not listed by this pattern. *)
Example tor_glob_multi_segment :
  WindowsBuild.tor_glob tree_fs 2 (cs "d/*/f")
  = (Finished (Some [cs "d\x\f"]),
     [StatCall (cs "d"); ListCall (cs "d");
      StatCall (cs "d\x"); MatchCall (cs "d\x") (cs "d\*");
      StatCall (cs "d\y"); MatchCall (cs "d\y") (cs "d\*");
      StatCall (cs "d\x\f"); StatCall (cs "d\y\f")]).
Proof. reflexivity. Qed.

(** The match gathered under [x] is dropped when listing [y] fails. *)
Example tor_glob_drops_partial_matches :
  tor_glob_win32 tree_fs 2 (cs "d\y\*") =
  (Finished None, [StatCall (cs "d\y"); ListCall (cs "d\y")])
  /\ calls (WindowsBuild.tor_glob tree_fs 3 (cs "d/*/*"))
     = [StatCall (cs "d"); ListCall (cs "d");
        StatCall (cs "d\x"); MatchCall (cs "d\x") (cs "d\*");
        StatCall (cs "d\y"); MatchCall (cs "d\y") (cs "d\*");
        StatCall (cs "d\x"); ListCall (cs "d\x");
        StatCall (cs "d\x\f"); MatchCall (cs "d\x\f") (cs "d\x\*");
        StatCall (cs "d\x\f" ++ [BACKSLASH]);
        StatCall (cs "d\y"); ListCall (cs "d\y")].
Proof. split; reflexivity. Qed.


(** * Further properties *)

(** ** The quote parser *)

Lemma get_unquoted_path_some (path r : cstring) :
  get_unquoted_path path = Some r -> r = unescape_quotes (interior path).
Proof.
  intros Er. rewrite get_unquoted_path_cases in Er.
  destruct path as [|c t]; [now injection Er as <-|].
  remember (c :: t) as path eqn:Hp.
  assert (Hne : path <> []) by (subst path; discriminate).
  destruct (negb (Bool.eqb (quoted path) (end_quoted path))
            || Ascii.eqb (path @ 0) QUOTE && (length path =? 1)) eqn:E;
    [discriminate|].
  apply orb_false_iff in E. destruct E as [E1 E2].
  apply negb_false_iff, Bool.eqb_prop in E1.
  assert (Hn1 : path <> [QUOTE]).
  { intros E. rewrite E in E2. discriminate E2. }
  destruct (unquote_interior path Hne E1 Hn1) as [_ Hw].
  now apply Hw.
Qed.

Lemma unescape_quote_free (s : cstring) :
  ~ In QUOTE s -> unescape_quotes s = s.
Proof.
  induction s as [|a|a b l IHl IHbl] using list_pair_ind; intros H;
    try reflexivity.
  rewrite unescape_keep.
  - f_equal. apply IHbl. intros Hin. apply H. now right.
  - intros ->. apply H. right. now left.
Qed.

Lemma char_at_in (s : cstring) (j : nat) : j < length s -> In (s @ j) s.
Proof. intros H. unfold char_at. now apply nth_In. Qed.

Lemma unescape_length (s : cstring) :
  length (unescape_quotes s) <= length s.
Proof.
  induction s as [|a|a b l IHl IHbl] using list_pair_ind;
    try (simpl; lia).
  rewrite unescape_step.
  destruct (Ascii.eqb a BACKSLASH && Ascii.eqb b QUOTE).
  - simpl. lia.
  - change (length (a :: unescape_quotes (b :: l)))
      with (S (length (unescape_quotes (b :: l)))).
    change (length (a :: b :: l)) with (S (length (b :: l))). lia.
Qed.

(** X1.  A string without any quote character is returned as it is. *)
Theorem get_unquoted_path_without_quotes (s : cstring) :
  ~ In QUOTE s -> get_unquoted_path s = Some s.
Proof.
  intros Hq.
  assert (Hat : forall j, j < length s -> s @ j <> QUOTE).
  { intros j Hj E. apply Hq. rewrite <- E. now apply char_at_in. }
  assert (Hquoted : quoted s = false).
  { unfold quoted. apply neqb_char. destruct s as [|c t].
    - intros E. apply eqb_char in E. discriminate E.
    - apply (Hat 0). simpl. lia. }
  assert (Hend : end_quoted s = false).
  { unfold end_quoted. apply neqb_char. destruct s as [|c t].
    - intros E. apply eqb_char in E. discriminate E.
    - rewrite <- char_at_last_index by discriminate.
      apply Hat. simpl. lia. }
  assert (Hint : interior s = s) by (unfold interior; now rewrite Hquoted).
  destruct (get_unquoted_path s) as [r|] eqn:E.
  - apply get_unquoted_path_some in E. rewrite Hint in E.
    now rewrite E, unescape_quote_free.
  - exfalso. apply get_unquoted_path_none in E.
    destruct E as [E|[E|(j & Hj & Hqj & _)]].
    + congruence.
    + apply Hq. rewrite E. now left.
    + rewrite Hint in Hj, Hqj. now apply (Hat j).
Qed.

Lemma get_unquoted_path_without_quotes_witness :
  ~ In QUOTE (cs "C:\dir\file") /\
  get_unquoted_path (cs "C:\dir\file") = Some (cs "C:\dir\file").
Proof.
  assert (H : ~ In QUOTE (cs "C:\dir\file")).
  { intros H. vm_compute in H.
    repeat (destruct H as [H|H]; [discriminate H|]). exact H. }
  split; [exact H|]. now apply get_unquoted_path_without_quotes.
Defined.

Lemma escape_quotes_head (s : cstring) : escape_quotes s @ 0 <> QUOTE.
Proof.
  destruct s as [|c t].
  - intros E. apply eqb_char in E. discriminate E.
  - simpl. destruct (Ascii.eqb c QUOTE) eqn:E.
    + exact backslash_not_quote.
    + now apply neqb_char.
Qed.

Lemma unescape_escape (s : cstring) :
  unescape_quotes (escape_quotes s) = s.
Proof.
  induction s as [|c t IH]; [reflexivity|].
  cbn [escape_quotes]. destruct (Ascii.eqb c QUOTE) eqn:E.
  - apply eqb_char in E. subst c. now rewrite unescape_pair, IH.
  - destruct (escape_quotes t) as [|d l] eqn:Et.
    + cbn. destruct t as [|x t']; [reflexivity|].
      simpl in Et. destruct (Ascii.eqb x QUOTE); discriminate Et.
    + rewrite unescape_keep.
      * now rewrite IH.
      * pose proof (escape_quotes_head t) as H. rewrite Et in H. exact H.
Qed.

Lemma escape_quotes_escaped (s : cstring) :
  forall j, j < length (escape_quotes s) ->
            escape_quotes s @ j = QUOTE ->
            j <> 0 /\ escape_quotes s @ (j - 1) = BACKSLASH.
Proof.
  induction s as [|c t IH]; intros j Hj Hq; [simpl in Hj; lia|].
  cbn [escape_quotes] in *. destruct (Ascii.eqb c QUOTE) eqn:E.
  - destruct j as [|[|j]].
    + now apply backslash_not_quote in Hq.
    + split; [discriminate|reflexivity].
    + rewrite !char_at_cons in Hq. simpl in Hj.
      destruct (IH j ltac:(lia) Hq) as [Hj0 Hb].
      split; [discriminate|].
      destruct j as [|j]; [contradiction|].
      simpl in Hb. rewrite Nat.sub_0_r in Hb.
      change (S (S (S j)) - 1) with (S (S j)).
      now rewrite !char_at_cons.
  - destruct j as [|j].
    + apply neqb_char in E. now contradiction E.
    + rewrite char_at_cons in Hq. simpl in Hj.
      destruct (IH j ltac:(lia) Hq) as [Hj0 Hb].
      split; [discriminate|].
      destruct j as [|j]; [contradiction|].
      simpl in Hb. rewrite Nat.sub_0_r in Hb.
      change (S (S j) - 1) with (S j).
      now rewrite char_at_cons.
Qed.

(** X2.  Unquoting undoes quoting: put a backslash before every quote of a
    string and enclose it in quotes, and [get_unquoted_path] gives the
    string back, whatever its characters are. *)
Theorem get_unquoted_path_round_trip (s : cstring) :
  get_unquoted_path ([QUOTE] ++ escape_quotes s ++ [QUOTE]) = Some s.
Proof.
  destruct (get_unquoted_path_quoted (escape_quotes s)) as [Hn Hs].
  destruct (get_unquoted_path ([QUOTE] ++ escape_quotes s ++ [QUOTE]))
    as [r|] eqn:E.
  - rewrite (Hs r eq_refl). now rewrite unescape_escape.
  - exfalso. destruct (proj1 Hn eq_refl) as (j & Hj & Hq & Hb).
    destruct (escape_quotes_escaped s j Hj Hq) as [Hj0 Hbs].
    destruct Hb as [Hb|Hb]; [now apply Hj0|now apply Hb].
Qed.

(** X3.  The output is never longer than the part of the input between
    the enclosing quotes, so it fits the buffer allocated for it. *)
Theorem get_unquoted_path_length (path r : cstring) :
  get_unquoted_path path = Some r ->
  length r + 2 * b2n (quoted path) <= length path.
Proof.
  intros E. pose proof (get_unquoted_path_some _ _ E) as ->.
  pose proof (unescape_length (interior path)) as Hl.
  enough (length (interior path) + 2 * b2n (quoted path) <= length path)
    by lia.
  clear Hl. unfold interior.
  destruct (quoted path) eqn:Eq; [|simpl; lia].
  rewrite get_unquoted_path_cases in E.
  destruct path as [|c t]; [discriminate Eq|].
  remember (c :: t) as path eqn:Hp.
  destruct (negb (Bool.eqb (quoted path) (end_quoted path))
            || Ascii.eqb (path @ 0) QUOTE && (length path =? 1)) eqn:Ec;
    [discriminate E|].
  apply orb_false_iff in Ec. destruct Ec as [E1 E2].
  apply negb_false_iff, Bool.eqb_prop in E1.
  assert (Hn1 : path <> [QUOTE]).
  { intros H. rewrite H in E2. discriminate E2. }
  rewrite Eq in E1. symmetry in E1.
  pose proof (quoted_shape path Eq E1 Hn1) as Hs.
  apply (f_equal (@length ascii)) in Hs.
  rewrite !length_app in Hs. unfold interior in Hs. rewrite Eq in Hs.
  simpl in *. lia.
Qed.

Lemma get_unquoted_path_length_witness :
  get_unquoted_path ([QUOTE] ++ cs "a" ++ [BACKSLASH; QUOTE] ++ cs "b"
                       ++ [QUOTE])
  = Some (cs "a" ++ [QUOTE] ++ cs "b")
  /\ length (cs "a" ++ [QUOTE] ++ cs "b") + 2 * 1 <= 6.
Proof.
  split; [reflexivity|].
  exact (get_unquoted_path_length
           ([QUOTE] ++ cs "a" ++ [BACKSLASH; QUOTE] ++ cs "b" ++ [QUOTE])
           (cs "a" ++ [QUOTE] ++ cs "b") eq_refl).
Defined.


(** ** The parent directory, by the shape of the name *)

Lemma parent_loop_free (p : platform) (k : nat) :
  forall s b,
    (forall j, j < k -> is_sep p (s @ j) = false) ->
    parent_loop p k s b = ((-1)%Z, s).
Proof.
  induction k as [|k IH]; intros s b H; [reflexivity|].
  cbn [parent_loop]. rewrite (H k) by lia.
  apply IH. intros j Hj. apply H. lia.
Qed.

Lemma sep_free_at (p : platform) (s : cstring) (j : nat) :
  sep_free p s -> j < length s -> is_sep p (s @ j) = false.
Proof.
  intros H Hj. unfold sep_free in H. rewrite Forall_forall in H.
  apply H. now apply char_at_in.
Qed.

(** The loop inside the last component [name], which follows the
    separator [c]. *)
Lemma parent_loop_in_name (p : platform) (s1 name : cstring) (c : ascii) :
  is_sep p c = true -> sep_free p name ->
  forall k b,
    k <= length name -> (k < length name -> b = false) -> name <> [] ->
    parent_loop p (length s1 + 1 + k) (s1 ++ [c] ++ name) b
    = (0%Z, match s1 with [] => [c] | _ => s1 end).
Proof.
  intros Hc Hname. induction k as [|k IH]; intros b Hk Hb Hne.
  - assert (b = false) as ->.
    { apply Hb. destruct name; [contradiction|simpl; lia]. }
    rewrite Nat.add_0_r, Nat.add_1_r. cbn [parent_loop].
    rewrite char_at_app_r, Nat.sub_diag by lia.
    assert (E : ([c] ++ name) @ 0 = c) by reflexivity. rewrite E, Hc.
    destruct s1 as [|a s1]; [reflexivity|].
    cbn [length Nat.eqb negb].
    change (S (length s1)) with (length (a :: s1)).
    rewrite firstn_app, firstn_all, Nat.sub_diag. simpl firstn.
    now rewrite app_nil_r.
  - replace (length s1 + 1 + S k) with (S (length s1 + 1 + k)) by lia.
    cbn [parent_loop].
    rewrite char_at_app_r by lia.
    replace (length s1 + 1 + k - length s1) with (S k) by lia.
    assert (E : ([c] ++ name) @ (S k) = name @ k) by reflexivity.
    rewrite E, (sep_free_at p name k Hname) by lia.
    apply IH; [lia|reflexivity|exact Hne].
Qed.

Lemma parent_loop_all_seps (p : platform) (s : cstring) :
  s <> [] -> all_seps p s ->
  parent_loop p (length s) s true = (0%Z, firstn 1 s).
Proof.
  intros Hne Hall. destruct s as [|c seps]; [contradiction|].
  inversion Hall as [|? ? Hc Hseps]. subst.
  change (c :: seps) with ([c] ++ seps).
  rewrite parent_loop_trailing; [|discriminate|exact Hseps].
  cbn [length parent_loop].
  assert (E : [c] @ 0 = c) by reflexivity. now rewrite E, Hc.
Qed.

Lemma body_shapes (p : platform) (body : cstring) :
  body = []
  \/ (body <> [] /\ all_seps p body)
  \/ (exists name seps,
         body = name ++ seps /\ name <> [] /\ sep_free p name
         /\ all_seps p seps)
  \/ (exists d c name seps,
         body = d ++ [c] ++ name ++ seps /\ is_sep p c = true
         /\ name <> [] /\ sep_free p name /\ all_seps p seps).
Proof.
  induction body as [|a t IH]; [now left|]. right.
  destruct (is_sep p a) eqn:Ea.
  - destruct IH as [->|[[Hne Hall]|[(name & seps & -> & Hn & Hf & Hs)
                                   |(d & c & name & seps & -> & Hc & Hn & Hf & Hs)]]].
    + left. split; [discriminate|]. now repeat constructor.
    + left. split; [discriminate|]. now constructor.
    + right; right. exists [], a, name, seps. now repeat split.
    + right; right. exists (a :: d), c, name, seps. now repeat split.
  - right.
    destruct IH as [->|[[Hne Hall]|[(name & seps & -> & Hn & Hf & Hs)
                                   |(d & c & name & seps & -> & Hc & Hn & Hf & Hs)]]].
    + left. exists [a], []. repeat split; try discriminate;
        now repeat constructor.
    + left. exists [a], t. repeat split; try discriminate; try assumption.
      now repeat constructor.
    + left. exists (a :: name), seps. repeat split; try discriminate;
        try assumption. now constructor.
    + right. exists (a :: d), c, name, seps. now repeat split.
Qed.

(** The four shapes of the part after the drive prefix, and what the call
    returns on each. *)
Lemma get_parent_directory_of_body (p : platform) (fname : cstring) :
  get_parent_directory p fname =
  let (r, rest) :=
    parent_loop p (length (path_body p fname)) (path_body p fname) true in
  (r, firstn (drive_prefix p fname) fname ++ rest).
Proof. reflexivity. Qed.

Lemma parent_loop_with_parent (p : platform) (d name seps : cstring)
  (c : ascii) :
  is_sep p c = true -> name <> [] -> sep_free p name -> all_seps p seps ->
  parent_loop p (length (d ++ [c] ++ name ++ seps))
    (d ++ [c] ++ name ++ seps) true
  = (0%Z, match d with [] => [c] | _ => d end).
Proof.
  intros Hc Hn Hf Hs.
  replace (d ++ [c] ++ name ++ seps) with ((d ++ [c] ++ name) ++ seps)
    by now rewrite <- !app_assoc.
  rewrite parent_loop_trailing; [|now destruct d|exact Hs].
  replace (length (d ++ [c] ++ name)) with (length d + 1 + length name)
    by (rewrite !length_app; simpl; lia).
  apply parent_loop_in_name; [assumption|assumption|lia|lia|assumption].
Qed.

Lemma parent_loop_without_parent (p : platform) (name seps : cstring) :
  name <> [] -> sep_free p name -> all_seps p seps ->
  parent_loop p (length (name ++ seps)) (name ++ seps) true
  = ((-1)%Z, name).
Proof.
  intros Hn Hf Hs. rewrite parent_loop_trailing by assumption.
  apply parent_loop_free. intros j Hj. now apply sep_free_at.
Qed.

(** X4.  A name whose last component [name] follows a separator has a
    parent: the call returns 0 and leaves what stood before that separator,
    or the separator itself when nothing stood before it.  Separators
    after the last component do not matter. *)
Theorem get_parent_directory_with_parent (p : platform)
  (fname d name seps : cstring) (c : ascii) :
  path_body p fname = d ++ [c] ++ name ++ seps ->
  is_sep p c = true -> name <> [] -> sep_free p name -> all_seps p seps ->
  get_parent_directory p fname
  = (0%Z, firstn (drive_prefix p fname) fname
            ++ match d with [] => [c] | _ => d end).
Proof.
  intros Hb Hc Hn Hf Hs. rewrite get_parent_directory_of_body, Hb.
  now rewrite parent_loop_with_parent.
Qed.

Lemma get_parent_directory_with_parent_witness :
  get_parent_directory Win32 (cs "c:/tor/data//") = (0%Z, cs "c:/tor")
  /\ get_parent_directory Posix (cs "/etc") = (0%Z, cs "/").
Proof.
  split.
  - apply (get_parent_directory_with_parent Win32 (cs "c:/tor/data//")
             (cs "/tor") (cs "data") (cs "//") SLASH).
    + reflexivity.
    + reflexivity.
    + discriminate.
    + repeat constructor.
    + repeat constructor.
  - apply (get_parent_directory_with_parent Posix (cs "/etc")
             [] (cs "etc") [] SLASH).
    + reflexivity.
    + reflexivity.
    + discriminate.
    + repeat constructor.
    + constructor.
Defined.

(** X5.  The call returns -1 exactly when the name, after its drive
    prefix, is empty or is one component without a separator before it,
    possibly followed by separators; the buffer is then left with those
    trailing separators cut off. *)
Theorem get_parent_directory_no_parent (p : platform) (fname : cstring) :
  (fst (get_parent_directory p fname) = (-1)%Z <->
   exists name seps,
     path_body p fname = name ++ seps /\ sep_free p name /\ all_seps p seps
     /\ (name = [] -> seps = []))
  /\ (forall name seps,
        path_body p fname = name ++ seps -> sep_free p name ->
        all_seps p seps -> (name = [] -> seps = []) ->
        get_parent_directory p fname
        = ((-1)%Z, firstn (drive_prefix p fname) fname ++ name)).
Proof.
  assert (Hvalue : forall name seps,
             path_body p fname = name ++ seps -> sep_free p name ->
             all_seps p seps -> (name = [] -> seps = []) ->
             get_parent_directory p fname
             = ((-1)%Z, firstn (drive_prefix p fname) fname ++ name)).
  { intros name seps Hb Hf Hs Hempty.
    rewrite get_parent_directory_of_body, Hb.
    destruct name as [|a name].
    - rewrite (Hempty eq_refl). reflexivity.
    - now rewrite parent_loop_without_parent. }
  split; [|exact Hvalue]. split.
  - intros Hr. rewrite get_parent_directory_of_body in Hr.
    destruct (body_shapes p (path_body p fname))
      as [Hb|[[Hne Hall]|[(name & seps & Hb & Hn & Hf & Hs)
                         |(d & c & name & seps & Hb & Hc & Hn & Hf & Hs)]]].
    + exists [], []. rewrite Hb. repeat split; constructor.
    + rewrite parent_loop_all_seps in Hr by assumption. discriminate Hr.
    + exists name, seps. repeat split; try assumption. contradiction.
    + rewrite Hb, parent_loop_with_parent in Hr by assumption.
      discriminate Hr.
  - intros (name & seps & Hb & Hf & Hs & Hempty).
    now rewrite (Hvalue name seps).
Qed.

Lemma get_parent_directory_no_parent_witness :
  path_body Posix (cs "torrc//") = cs "torrc" ++ cs "//"
  /\ get_parent_directory Posix (cs "torrc//") = ((-1)%Z, cs "torrc").
Proof.
  split; [reflexivity|].
  apply (proj2 (get_parent_directory_no_parent Posix (cs "torrc//"))
           (cs "torrc") (cs "//")); try reflexivity;
    try discriminate; repeat constructor.
Defined.

(** X6.  The call only ever truncates: the buffer afterwards is a prefix
    of the name, the status is 0 or -1, and on status 0 the buffer is
    strictly shorter unless the name, after its drive prefix, is a single
    separator.  So walking up from any name reaches a root or stops with
    -1. *)
Theorem get_parent_directory_truncates (p : platform) (fname : cstring) :
  let (r, parent) := get_parent_directory p fname in
  (exists cut, fname = parent ++ cut)
  /\ (r = 0%Z \/ r = (-1)%Z)
  /\ (r = 0%Z ->
      length parent < length fname
      \/ exists c, is_sep p c = true /\ path_body p fname = [c]).
Proof.
  rewrite get_parent_directory_of_body.
  pose proof (firstn_skipn (drive_prefix p fname) fname) as Hsplit.
  fold (path_body p fname) in Hsplit.
  set (pre := firstn (drive_prefix p fname) fname) in *.
  destruct (body_shapes p (path_body p fname))
    as [Hb|[[Hne Hall]|[(name & seps & Hb & Hn & Hf & Hs)
                       |(d & c & name & seps & Hb & Hc & Hn & Hf & Hs)]]].
  - rewrite Hb in *. simpl. rewrite app_nil_r in *.
    split; [exists []; now rewrite app_nil_r|].
    split; [now right|discriminate].
  - rewrite parent_loop_all_seps by assumption.
    destruct (path_body p fname) as [|c seps] eqn:Hb; [contradiction|].
    simpl firstn. split.
    + exists seps. rewrite <- Hsplit. now rewrite <- app_assoc.
    + split; [now left|]. intros _.
      destruct seps as [|c' seps].
      * right. exists c. split; [|reflexivity]. now inversion Hall.
      * left. rewrite <- Hsplit, !length_app. simpl. lia.
  - rewrite Hb, parent_loop_without_parent by assumption. split.
    + exists seps. rewrite <- Hsplit, Hb. now rewrite app_assoc.
    + split; [now right|discriminate].
  - rewrite Hb, parent_loop_with_parent by assumption. split.
    + destruct d as [|a d].
      * exists (name ++ seps). rewrite <- Hsplit, Hb.
        now rewrite <- !app_assoc.
      * exists ([c] ++ name ++ seps). rewrite <- Hsplit, Hb.
        now rewrite <- !app_assoc.
    + split; [now left|]. intros _. left.
      rewrite <- Hsplit, Hb.
      destruct name as [|x name]; [contradiction|].
      destruct d; rewrite !length_app; simpl; rewrite ?length_app; simpl; lia.
Qed.

Lemma get_parent_directory_truncates_witness :
  (exists cut, cs "/var/lib/tor" = cs "/var/lib" ++ cut)
  /\ length (cs "/var/lib") < length (cs "/var/lib/tor").
Proof.
  pose proof (get_parent_directory_truncates Posix (cs "/var/lib/tor"))
    as H.
  change (get_parent_directory Posix (cs "/var/lib/tor"))
    with (0%Z, cs "/var/lib") in H.
  destruct H as (Hcut & _ & Hlen). split; [exact Hcut|].
  destruct (Hlen eq_refl) as [Hlt|(c & _ & Hb)]; [exact Hlt|].
  discriminate Hb.
Defined.

(** ** [clean_fname_for_stat] *)

(** X7.  Cleaning a name removes at most its last character, only when
    that character is a separator, and never leaves a name empty that was
    not; where [_WIN32] is not defined it changes nothing. *)
Theorem clean_fname_for_stat_cuts_one_separator (p : platform)
  (name : cstring) :
  (exists cut,
      name = clean_fname_for_stat p name ++ cut
      /\ length cut <= 1 /\ all_seps Win32 cut)
  /\ (name <> [] -> clean_fname_for_stat p name <> [])
  /\ clean_fname_for_stat Posix name = name.
Proof.
  split; [|split; [|reflexivity]].
  - destruct p.
    + exists []. now rewrite app_nil_r; repeat split; try constructor.
    + rewrite clean_fname_for_stat_cases.
      destruct (ends_with_sep Win32 name) eqn:E.
      2:{ exists []. now rewrite app_nil_r; repeat split; try constructor. }
      destruct (_ || _).
      { exists []. now rewrite app_nil_r; repeat split; try constructor. }
      unfold ends_with_sep in E. destruct name as [|c t]; [discriminate E|].
      exists [last (c :: t) NUL]. split; [|split].
      * apply app_removelast_last. discriminate.
      * simpl. lia.
      * now repeat constructor.
  - intros Hne. destruct p; [exact Hne|].
    rewrite clean_fname_for_stat_cases.
    destruct (ends_with_sep Win32 name); [|exact Hne].
    destruct (length name =? 1) eqn:E1; [exact Hne|]. cbn [orb].
    destruct (_ && _); [exact Hne|].
    destruct name as [|a [|b t]]; [contradiction|discriminate E1|].
    simpl. discriminate.
Qed.

Lemma clean_fname_for_stat_cuts_one_separator_witness :
  cs "dir" <> [] /\ clean_fname_for_stat Win32 (cs "dir/") = cs "dir"
  /\ clean_fname_for_stat Win32 (cs "dir") <> [].
Proof.
  assert (H : cs "dir" <> []) by discriminate.
  split; [exact H|]. split; [reflexivity|].
  exact (proj1 (proj2 (clean_fname_for_stat_cuts_one_separator
                         Win32 (cs "dir"))) H).
Defined.


(** ** More on the glob-character detector *)

(** X8.  What counts as a metacharacter where backslash escapes also
    counts on Windows: a string with globs for the first build has globs
    for the second. *)
Theorem has_glob_posix_implies_win32 (s : cstring) :
  has_glob Posix s = true -> has_glob Win32 s = true.
Proof.
  rewrite !has_glob_true. intros (i & Hi & Hm & _).
  exists i. repeat split; try assumption. discriminate.
Qed.

Lemma has_glob_posix_implies_win32_witness :
  has_glob Posix (cs "dir/*.conf") = true
  /\ has_glob Win32 (cs "dir/*.conf") = true.
Proof.
  assert (H : has_glob Posix (cs "dir/*.conf") = true) by reflexivity.
  split; [exact H|]. now apply has_glob_posix_implies_win32.
Defined.

Lemma unescaped_metachar_app_l (p : platform) (a b : cstring) (i : nat) :
  unescaped_metachar p a i -> unescaped_metachar p (a ++ b) i.
Proof.
  intros (Hi & Hm & He). unfold unescaped_metachar.
  rewrite length_app, char_at_app_l by lia.
  split; [lia|]. split; [exact Hm|].
  intros Hp. destruct (He Hp) as [->|Hb]; [now left|right].
  rewrite char_at_app_l by lia. exact Hb.
Qed.

Lemma has_glob_prefix (p : platform) (a b : cstring) :
  has_glob p a = true -> has_glob p (a ++ b) = true.
Proof.
  rewrite !has_glob_true. intros (i & H). exists i.
  now apply unescaped_metachar_app_l.
Qed.

Lemma has_glob_joined (p : platform) (a b : cstring) (c : ascii) :
  is_metachar c = false -> (p = Posix -> c <> BACKSLASH) ->
  has_glob p (a ++ [c] ++ b) = true
  <-> has_glob p a = true \/ has_glob p b = true.
Proof.
  intros Hc Hbs. rewrite !has_glob_true. split.
  - intros (i & Hi & Hm & He).
    rewrite !length_app in Hi. simpl in Hi.
    destruct (Nat.lt_ge_cases i (length a)) as [Hlt|Hge].
    + left. exists i. rewrite char_at_app_l in Hm by lia.
      repeat split; try assumption.
      intros Hp. destruct (He Hp) as [->|Hb]; [now left|right].
      rewrite char_at_app_l in Hb by lia. exact Hb.
    + rewrite char_at_app_r in Hm by lia.
      destruct (i - length a) as [|j] eqn:Ej.
      { exfalso. change (([c] ++ b) @ 0) with c in Hm.
        unfold is_metachar in Hc. apply orb_false_iff in Hc.
        destruct Hc as [H1 H2]. apply neqb_char in H1, H2.
        destruct Hm; contradiction. }
      right. exists j. change (([c] ++ b) @ (S j)) with (b @ j) in Hm.
      repeat split; [lia|exact Hm|].
      intros Hp. destruct j as [|j]; [now left|right].
      destruct (He Hp) as [->|Hb]; [lia|].
      rewrite char_at_app_r in Hb by lia.
      replace (i - 1 - length a) with (S j) in Hb by lia.
      simpl. now rewrite Nat.sub_0_r.
  - intros [(i & H)|(j & Hj & Hm & He)].
    + exists i. now apply unescaped_metachar_app_l.
    + exists (length a + S j). unfold unescaped_metachar.
      rewrite !length_app, char_at_app_r by lia.
      replace (length a + S j - length a) with (S j) by lia.
      change (([c] ++ b) @ (S j)) with (b @ j).
      split; [simpl; lia|]. split; [exact Hm|].
      intros Hp. right. rewrite char_at_app_r by lia.
      replace (length a + S j - 1 - length a) with j by lia.
      destruct j as [|j].
      * change (([c] ++ b) @ 0) with c. now apply Hbs.
      * change (([c] ++ b) @ (S j)) with (b @ j).
        destruct (He Hp) as [E|Hb]; [discriminate E|].
        simpl in Hb. now rewrite Nat.sub_0_r in Hb.
Qed.

(** X9.  A name made of two parts and the path separator of the build
    between them has globs exactly when one of the parts has; and a string
    with globs keeps them whatever is appended to it. *)
Theorem has_glob_of_joined_path (p : platform) (a b : cstring) :
  has_glob p (a ++ PATH_SEPARATOR p ++ b) = has_glob p a || has_glob p b
  /\ (has_glob p a = true -> has_glob p (a ++ b) = true).
Proof.
  split; [|apply has_glob_prefix].
  apply Bool.eq_iff_eq_true. rewrite orb_true_iff.
  destruct p; apply has_glob_joined; try reflexivity.
  - intros _ E. apply eqb_char in E. discriminate E.
  - discriminate.
Qed.

Lemma has_glob_of_joined_path_witness :
  has_glob Posix (cs "conf.d") = false
  /\ has_glob Posix (cs "conf.d" ++ PATH_SEPARATOR Posix ++ cs "*.conf")
     = true
  /\ has_glob Posix (cs "*.conf" ++ cs ".bak") = true.
Proof.
  destruct (has_glob_of_joined_path Posix (cs "conf.d") (cs "*.conf"))
    as [Hj _].
  destruct (has_glob_of_joined_path Posix (cs "*.conf") (cs ".bak"))
    as [_ Hp].
  split; [reflexivity|]. split; [rewrite Hj; reflexivity|].
  apply Hp. reflexivity.
Defined.

(** ** More on the native backend *)

Lemma strip_match_shape (m : cstring) :
  UnixBuild.strip_match m = m \/ m = UnixBuild.strip_match m ++ [SLASH].
Proof.
  rewrite strip_match_cases.
  destruct (ends_with_sep Posix m) eqn:E; [right|now left].
  unfold ends_with_sep in E. destruct m as [|c t]; [discriminate E|].
  apply eqb_char in E. rewrite <- E.
  apply app_removelast_last. discriminate.
Qed.

(** X10.  When the facility reports success, the result has one element
    for each of its matches, in its order, and each element is the match
    itself or the match without its final slash. *)
Theorem native_matches_in_order (g : glob_facility) (pattern : cstring) :
  fst (glob g pattern (UnixBuild.glob_flags g)) = 0%Z ->
  GLOB_NOMATCH g <> 0%Z ->
  exists results,
    UnixBuild.tor_glob g pattern = Some results
    /\ Forall2 (fun m e => e = m \/ m = e ++ [SLASH])
         (snd (glob g pattern (UnixBuild.glob_flags g))) results.
Proof.
  intros Hr Hnm. rewrite native_outcome. cbv zeta. rewrite Hr.
  replace (0 =? GLOB_NOMATCH g)%Z with false
    by (symmetry; apply Z.eqb_neq; congruence).
  cbn [Z.eqb]. eexists. split; [reflexivity|].
  induction (snd (glob g pattern (UnixBuild.glob_flags g))) as [|m l IH];
    constructor; [apply strip_match_shape|exact IH].
Qed.

Lemma native_matches_in_order_witness :
  exists results,
    UnixBuild.tor_glob double_slash_glob (cs "a//") = Some results
    /\ Forall2 (fun m e => e = m \/ m = e ++ [SLASH]) [cs "a//"] results.
Proof.
  apply (native_matches_in_order double_slash_glob (cs "a//"));
    [reflexivity|discriminate].
Defined.

(** ** More on the manual backend *)

Lemma unglob_entries_run (fs : filesystem) (pattern dir : cstring)
  (curr_sep : Z) (filenames : list cstring) :
  forall results,
    unglob_entries fs pattern dir curr_sep filenames results =
    (results
       ++ map (path_join dir)
            (filter (entry_matches fs pattern dir curr_sep) filenames),
     flat_map
       (fun f =>
          [StatCall (path_join dir f);
           MatchCall (path_join dir f)
             (entry_spec fs pattern curr_sep (path_join dir f))])
       filenames).
Proof.
  induction filenames as [|f fl IH]; intros results.
  - cbn. now rewrite app_nil_r.
  - cbn [unglob_entries]. cbv zeta.
    unfold do_file_status, do_PathMatchSpec, bind.
    rewrite IH. cbn [flat_map filter map app].
    unfold entry_matches at 2. unfold entry_spec at 3.
    unfold entry_spec at 2.
    destruct (PathMatchSpec fs _ _).
    + cbn [map]. rewrite <- app_assoc. reflexivity.
    + reflexivity.
Qed.

(** X11.  [unglob_win32] returns the entries of the directory before the
    fragment that match the fragment, in the order of the listing and each
    prefixed with the directory, and it reaches the file system through
    one status query of the directory, one listing, and one status query
    and one match for each entry, in that order.  A directory that is in
    fact a file is not listed and gives no entry; a listing that fails
    gives the null pointer. *)
Theorem unglob_win32_run (fs : filesystem) (pattern : cstring)
  (prev_sep curr_sep : Z) :
  let dir := path_until_glob pattern prev_sep in
  unglob_win32 fs pattern prev_sep curr_sep =
  if is_file (file_status fs dir) then (Some [], [StatCall dir])
  else
    match tor_listdir fs dir with
    | None => (None, [StatCall dir; ListCall dir])
    | Some filenames =>
        (Some (map (path_join dir)
                 (filter (entry_matches fs pattern dir curr_sep) filenames)),
         StatCall dir :: ListCall dir ::
         flat_map
           (fun f =>
              [StatCall (path_join dir f);
               MatchCall (path_join dir f)
                 (entry_spec fs pattern curr_sep (path_join dir f))])
           filenames)
    end.
Proof.
  cbv zeta. unfold unglob_win32. cbv zeta.
  unfold do_file_status, do_listdir. unfold bind at 1.
  destruct (is_file (file_status fs (path_until_glob pattern prev_sep)));
    [reflexivity|].
  cbn [negb]. unfold bind at 1.
  destruct (tor_listdir fs (path_until_glob pattern prev_sep)) as [fl|];
    [|reflexivity].
  unfold bind. rewrite unglob_entries_run. unfold ret. cbn [app].
  rewrite ?app_nil_r. reflexivity.
Qed.


(** *** The first loop finds the first fragment with globs *)

Lemma char_at_nul (s : cstring) (j : nat) :
  ~ In NUL s -> s @ j = NUL -> length s <= j.
Proof.
  intros Hn E. destruct (Nat.lt_ge_cases j (length s)) as [H|H]; [|exact H].
  exfalso. apply Hn. rewrite <- E. now apply char_at_in.
Qed.

Lemma is_sep_win32 (c : ascii) :
  Ascii.eqb c BACKSLASH || Ascii.eqb c SLASH = is_sep Win32 c.
Proof. apply orb_comm. Qed.

Lemma find_glob_fragment_spec (pattern : cstring) (k : nat) :
  ~ In NUL pattern ->
  forall (i : nat) (g : bool) (prev_sep curr_sep p c : Z),
    i + k = length pattern ->
    (k = 0 -> g = false) ->
    (-1 <= prev_sep <= curr_sep)%Z -> (curr_sep < Z.of_nat i)%Z ->
    (curr_sep = (-1)%Z
     \/ is_sep Win32 (pattern @ (Z.to_nat curr_sep)) = true) ->
    (forall j, (curr_sep < Z.of_nat j)%Z -> j < i ->
               is_sep Win32 (pattern @ j) = false) ->
    (forall j, (Z.of_nat j <= curr_sep)%Z ->
               is_metachar (pattern @ j) = false) ->
    (g = false -> forall j, j < i -> is_metachar (pattern @ j) = false) ->
    (g = true -> exists j, (curr_sep < Z.of_nat j)%Z /\ j < i
                           /\ is_metachar (pattern @ j) = true) ->
    find_glob_fragment pattern k i g prev_sep curr_sep = (true, p, c) ->
    (-1 <= p < c)%Z /\ (c < Z.of_nat (length pattern))%Z
    /\ (p = (-1)%Z \/ is_sep Win32 (pattern @ (Z.to_nat p)) = true)
    /\ (is_sep Win32 (pattern @ (Z.to_nat c)) = true
        \/ c = (Z.of_nat (length pattern) - 1)%Z)
    /\ (forall j, (p < Z.of_nat j < c)%Z ->
                  is_sep Win32 (pattern @ j) = false)
    /\ (forall j, (Z.of_nat j <= p)%Z -> is_metachar (pattern @ j) = false)
    /\ (exists j, (p < Z.of_nat j <= c)%Z
                  /\ is_metachar (pattern @ j) = true).
Proof.
  intros Hnul. induction k as [|k IH];
    intros i g prev_sep curr_sep p c Hlen Hk Hord Hci Hsep Hbetween Hcurr
      Hno Hg H.
  - simpl in H. injection H as Hg' _ _. rewrite Hk in Hg' by reflexivity.
    discriminate Hg'.
  - cbn [find_glob_fragment] in H.
    change (IS_GLOB_CHAR Win32 pattern i) with (is_metachar (pattern @ i)) in H.
    rewrite is_sep_win32 in H.
    assert (Hg' : g || is_metachar (pattern @ i) = true ->
                  exists j, (curr_sep < Z.of_nat j)%Z /\ j < S i
                            /\ is_metachar (pattern @ j) = true).
    { intros E. apply orb_true_iff in E. destruct E as [E|E].
      - destruct (Hg E) as (j & Hj1 & Hj2 & Hm). exists j.
        repeat split; [lia|lia|exact Hm].
      - exists i. repeat split; [lia|lia|exact E]. }
    assert (Hno' : g || is_metachar (pattern @ i) = false ->
                   forall j, j < S i -> is_metachar (pattern @ j) = false).
    { intros E j Hj. apply orb_false_iff in E. destruct E as [E1 E2].
      destruct (Nat.eq_dec j i) as [->|Hne]; [exact E2|].
      apply (Hno E1). lia. }
    destruct (is_sep Win32 (pattern @ i)) eqn:Es.
    + cbn [orb] in H.
      destruct (g || is_metachar (pattern @ i)) eqn:Eg.
      * injection H as <- <-.
        split; [lia|]. split; [lia|]. split; [exact Hsep|].
        split; [left; now rewrite Nat2Z.id|].
        split; [intros j Hj; apply Hbetween; lia|].
        split; [exact Hcurr|].
        destruct (Hg' eq_refl) as (j & Hj1 & Hj2 & Hm).
        exists j. split; [lia|exact Hm].
      * apply (IH (S i) false curr_sep (Z.of_nat i) p c);
          [lia|reflexivity|lia|lia|right; now rewrite Nat2Z.id
          |intros j Hj1 Hj2; lia
          |intros j Hj; apply (Hno' eq_refl); lia
          |intros _; now apply Hno'|discriminate|exact H].
    + cbn [orb] in H.
      destruct (Ascii.eqb (pattern @ (i + 1)) NUL) eqn:El.
      * (* the last character of the pattern *)
        apply eqb_char in El. apply (char_at_nul _ _ Hnul) in El.
        assert (k = 0) as -> by lia.
        destruct (g || is_metachar (pattern @ i)) eqn:Eg.
        -- injection H as <- <-.
           split; [lia|]. split; [lia|]. split; [exact Hsep|].
           split; [right; lia|].
           split; [intros j Hj; apply Hbetween; lia|].
           split; [exact Hcurr|].
           destruct (Hg' eq_refl) as (j & Hj1 & Hj2 & Hm).
           exists j. split; [lia|exact Hm].
        -- simpl in H. discriminate H.
      * apply neqb_char in El.
        apply (IH (S i) (g || is_metachar (pattern @ i)) prev_sep curr_sep p c);
          [lia| |lia|lia|exact Hsep| |exact Hcurr|exact Hno'| |exact H].
        -- intros ->. exfalso. apply El. apply char_at_end. lia.
        -- intros j Hj1 Hj2.
           destruct (Nat.eq_dec j i) as [->|Hne]; [exact Es|].
           apply Hbetween; lia.
        -- intros E. destruct (Hg' E) as (j & Hj1 & Hj2 & Hm).
           exists j. repeat split; [lia|lia|exact Hm].
Qed.

(** X12.  On a pattern with a metacharacter the first loop of
    [tor_glob_win32] stops on the first fragment that holds one:
    [prev_sep] is -1 or the index of a separator, [curr_sep] is the index
    of the next separator or of the last character, no separator lies
    between them, no metacharacter lies at or before [prev_sep], and one
    lies after it, up to [curr_sep]. *)
Theorem glob_fragment_spec (pattern : cstring) :
  ~ In NUL pattern ->
  has_glob Win32 pattern = true ->
  exists prev_sep curr_sep,
    glob_fragment pattern = (true, prev_sep, curr_sep)
    /\ (-1 <= prev_sep < curr_sep)%Z
    /\ (curr_sep < Z.of_nat (length pattern))%Z
    /\ (prev_sep = (-1)%Z
        \/ is_sep Win32 (pattern @ (Z.to_nat prev_sep)) = true)
    /\ (is_sep Win32 (pattern @ (Z.to_nat curr_sep)) = true
        \/ curr_sep = (Z.of_nat (length pattern) - 1)%Z)
    /\ (forall j, (prev_sep < Z.of_nat j < curr_sep)%Z ->
                  is_sep Win32 (pattern @ j) = false)
    /\ (forall j, (Z.of_nat j <= prev_sep)%Z ->
                  is_metachar (pattern @ j) = false)
    /\ (exists j, (prev_sep < Z.of_nat j <= curr_sep)%Z
                  /\ is_metachar (pattern @ j) = true).
Proof.
  intros Hnul Hglob.
  pose proof (glob_fragment_is_glob pattern) as Hg.
  destruct (glob_fragment pattern) as [[g prev_sep] curr_sep] eqn:Hf.
  simpl in Hg. rewrite Hglob in Hg. subst g.
  exists prev_sep, curr_sep. split; [reflexivity|].
  unfold glob_fragment in Hf.
  apply (find_glob_fragment_spec pattern (length pattern) Hnul
           0 false (-1) (-1) prev_sep curr_sep);
    try lia; try assumption; try reflexivity; try (now left);
    try discriminate.
Qed.

Lemma glob_fragment_spec_witness :
  ~ In NUL (cs "d\x*\f")
  /\ has_glob Win32 (cs "d\x*\f") = true
  /\ glob_fragment (cs "d\x*\f") = (true, 1%Z, 4%Z).
Proof.
  assert (Hn : ~ In NUL (cs "d\x*\f")).
  { intros H. vm_compute in H.
    repeat (destruct H as [H|H]; [discriminate H|]). exact H. }
  assert (Hg : has_glob Win32 (cs "d\x*\f") = true) by reflexivity.
  split; [exact Hn|]. split; [exact Hg|].
  destruct (glob_fragment_spec (cs "d\x*\f") Hn Hg)
    as (prev_sep & curr_sep & Hf & _).
  reflexivity.
Defined.

(** *** Runs of the manual backend *)

(** X13.  Where directory listings name no entry with [*] or [?], the
    recursion of the manual backend is no deeper than the pattern has
    metacharacters: with a larger bound the run returns, and neither its
    result nor its calls depend on the bound. *)
Theorem tor_glob_returns (fs : filesystem) (pattern : cstring) :
  glob_free_listings fs ->
  forall n, count_globs pattern < n ->
    value (WindowsBuild.tor_glob fs n pattern) <> OutOfFuel
    /\ WindowsBuild.tor_glob fs n pattern
       = WindowsBuild.tor_glob fs (S (count_globs pattern)) pattern.
Proof.
  intros Hlist n Hn. unfold WindowsBuild.tor_glob.
  set (q := tor_strreplacechar pattern SLASH BACKSLASH).
  pose proof (tor_glob_win32_returns_within fs Hlist (count_globs pattern) q)
    as Hret.
  unfold q in Hret at 1. rewrite count_globs_normalized in Hret.
  specialize (Hret (Nat.le_refl _)).
  destruct (value (tor_glob_win32 fs (S (count_globs pattern)) q))
    as [|r] eqn:E; [now contradiction Hret|].
  rewrite (tor_glob_win32_mono fs (S (count_globs pattern)) n q r);
    [|lia|exact E].
  split; [|reflexivity]. rewrite E. discriminate.
Qed.

Lemma tor_glob_returns_witness :
  glob_free_listings tree_fs
  /\ count_globs (cs "d/*/f") < 7
  /\ value (WindowsBuild.tor_glob tree_fs 7 (cs "d/*/f"))
     = Finished (Some [cs "d\x\f"]).
Proof.
  assert (Hn : count_globs (cs "d/*/f") < 7) by (vm_compute; lia).
  split; [exact tree_fs_glob_free|]. split; [exact Hn|].
  destruct (tor_glob_returns tree_fs (cs "d/*/f") tree_fs_glob_free 7 Hn)
    as [_ ->].
  reflexivity.
Defined.

Lemma clean_fname_for_stat_prefix (name : cstring) :
  exists cut, name = clean_fname_for_stat Win32 name ++ cut.
Proof.
  rewrite clean_fname_for_stat_cases.
  destruct (ends_with_sep Win32 name) eqn:E;
    [|exists []; now rewrite app_nil_r].
  destruct (_ || _); [exists []; now rewrite app_nil_r|].
  destruct name as [|c t]; [discriminate E|].
  exists [last (c :: t) NUL]. apply app_removelast_last. discriminate.
Qed.

Lemma results_from_base_case (fs : filesystem) (n : nat) :
  forall pattern results,
    value (tor_glob_win32 fs n pattern) = Finished (Some results) ->
    forall e, In e results ->
      exists x, e = clean_fname_for_stat Win32 x
                /\ has_glob Win32 x = false.
Proof.
  induction n as [|n IH]; intros pattern results H e He;
    [discriminate H|].
  pose proof (glob_fragment_is_glob pattern) as Hg.
  destruct (glob_fragment pattern) as [[g prev_sep] curr_sep] eqn:Hf.
  simpl in Hg. subst g.
  destruct (has_glob Win32 pattern) eqn:Hglob.
  - rewrite (tor_glob_win32_glob_value fs n pattern _ _ Hf) in H.
    destruct (value (unglob_win32 fs pattern prev_sep curr_sep))
      as [paths|]; [|discriminate H].
    destruct (value (expand_each _ _ _ _)) as [[err res]|] eqn:Ee;
      [|discriminate H].
    destruct err; [discriminate H|]. injection H as ->.
    destruct (expand_each_success _ _ _ _ _ Ee) as (parts & Hall & ->).
    simpl in He. apply in_concat in He. destruct He as (part & Hpart & He).
    clear Ee. induction Hall as [|p l paths parts Hp Hall IHall];
      [contradiction|].
    destruct Hpart as [->|Hpart]; [|now apply IHall].
    exact (IH _ _ Hp e He).
  - rewrite (tor_glob_win32_non_glob fs n pattern Hglob) in H.
    cbn [value fst] in H. exists pattern.
    destruct (file_status fs pattern) eqn:Es; try discriminate H;
      injection H as <-; simpl in He; try contradiction;
      destruct He as [<-|[]]; (split; [reflexivity|exact Hglob]).
Qed.

(** X14.  No path returned by the manual backend holds a [*] or a [?]:
    each comes from a recursive call on a pattern without metacharacters. *)
Theorem tor_glob_results_have_no_globs (fs : filesystem) (n : nat)
  (pattern : cstring) (results : list cstring) :
  value (WindowsBuild.tor_glob fs n pattern) = Finished (Some results) ->
  forall e, In e results -> has_glob Win32 e = false.
Proof.
  unfold WindowsBuild.tor_glob. intros H e He.
  destruct (results_from_base_case fs n _ _ H e He) as (x & -> & Hx).
  destruct (clean_fname_for_stat_prefix x) as (cut & Hcut).
  destruct (has_glob Win32 (clean_fname_for_stat Win32 x)) eqn:E;
    [|reflexivity].
  apply (has_glob_prefix Win32 _ cut) in E. rewrite <- Hcut in E. congruence.
Qed.

Lemma tor_glob_results_have_no_globs_witness :
  value (WindowsBuild.tor_glob tree_fs 2 (cs "d/*/f"))
  = Finished (Some [cs "d\x\f"])
  /\ has_glob Win32 (cs "d\x\f") = false.
Proof.
  split; [reflexivity|].
  apply (tor_glob_results_have_no_globs tree_fs 2 (cs "d/*/f")
           [cs "d\x\f"] eq_refl).
  now left.
Defined.


(** ** Home directories *)

Lemma cstring_eqb_eq (a b : cstring) : cstring_eqb a b = true <-> a = b.
Proof.
  revert b. induction a as [|x a IH]; intros [|y b]; simpl;
    try (split; [discriminate|discriminate]); [now split|].
  rewrite andb_true_iff, eqb_char, IH. split.
  - now intros [-> ->].
  - intros H. injection H as -> ->. now split.
Qed.

Lemma strcmpend_slash (home : cstring) :
  strcmpend_is_zero home (PATH_SEPARATOR Posix) = ends_with_sep Posix home.
Proof.
  unfold strcmpend_is_zero, ends_with_sep, PATH_SEPARATOR.
  destruct home as [|c t]; [reflexivity|].
  remember (c :: t) as home eqn:E.
  assert (Hne : home <> []) by (subst; discriminate).
  replace (length [SLASH] <=? length home) with true
    by (subst; reflexivity).
  cbn [andb length is_sep].
  destruct (exists_last Hne) as (h & x & ->).
  rewrite last_last, length_app. simpl length.
  replace (length h + 1 - 1) with (length h) by lia.
  rewrite skipn_app, skipn_all, Nat.sub_diag. simpl.
  now rewrite andb_true_r.
Qed.

Lemma join_home_plain (home rest : cstring) :
  ends_with_sep Posix home = false ->
  join_home home rest = home ++ [SLASH] ++ rest.
Proof.
  intros H. unfold join_home. rewrite strcmpend_slash, H.
  now rewrite andb_false_r.
Qed.

Lemma join_home_slash (home rest : cstring) :
  home <> [] ->
  join_home (home ++ [SLASH]) rest = home ++ [SLASH] ++ rest.
Proof.
  intros Hne. unfold join_home. rewrite strcmpend_slash.
  assert (E : ends_with_sep Posix (home ++ [SLASH]) = true).
  { unfold ends_with_sep. rewrite last_last.
    destruct (home ++ [SLASH]) eqn:Eh; [|reflexivity].
    now destruct home. }
  rewrite E, length_app. simpl length.
  replace (1 <? length home + 1) with true.
  - cbn [andb]. replace (length home + 1 - 1) with (length home) by lia.
    rewrite firstn_app, firstn_all, Nat.sub_diag. simpl firstn.
    now rewrite app_nil_r.
  - symmetry. apply Nat.ltb_lt. destruct home; [contradiction|simpl; lia].
Qed.

(** X15.  For a name that is [~] followed by a slash and [rest]: without
    [HOME] the result is a slash and [rest], and a warning is logged; with
    [HOME] set the result is the home directory, one slash and [rest],
    whether or not [HOME] ends with a slash.  The name [~] alone expands as
    [~/] does. *)
Theorem expand_filename_home (e : user_env) (rest : cstring) :
  (getenv_HOME e = None ->
   expand_filename Posix e (TILDE :: SLASH :: rest)
   = (Some (SLASH :: rest), [WarnNoHome (TILDE :: SLASH :: rest)]))
  /\ (forall home,
         home <> [] -> ends_with_sep Posix home = false ->
         getenv_HOME e = Some home \/ getenv_HOME e = Some (home ++ [SLASH]) ->
         expand_filename Posix e (TILDE :: SLASH :: rest)
         = (Some (home ++ [SLASH] ++ rest), []))
  /\ fst (expand_filename Posix e [TILDE])
     = fst (expand_filename Posix e [TILDE; SLASH]).
Proof.
  split; [|split].
  - intros H. unfold expand_filename.
    change ((TILDE :: SLASH :: rest) @ 0) with TILDE.
    change ((TILDE :: SLASH :: rest) @ 1) with SLASH.
    rewrite !Ascii.eqb_refl. cbn [orb]. now rewrite H.
  - intros home Hne Hend H. unfold expand_filename.
    change ((TILDE :: SLASH :: rest) @ 0) with TILDE.
    change ((TILDE :: SLASH :: rest) @ 1) with SLASH.
    rewrite !Ascii.eqb_refl. cbn [orb].
    change (if 2 <=? length (TILDE :: SLASH :: rest)
            then skipn 2 (TILDE :: SLASH :: rest) else []) with rest.
    destruct H as [-> | ->].
    + now rewrite join_home_plain.
    + now rewrite join_home_slash.
  - unfold expand_filename. cbn. now destruct (getenv_HOME e).
Qed.

Lemma expand_filename_home_witness :
  expand_filename Posix home_env (cs "~/.torrc")
  = (Some (cs "/home/u/.torrc"), []).
Proof.
  apply (proj1 (proj2 (expand_filename_home home_env (cs ".torrc")))
           (cs "/home/u")).
  - discriminate.
  - reflexivity.
  - right. reflexivity.
Defined.

Lemma strchr_found (a b : cstring) (c : ascii) :
  ~ In c a -> strchr (a ++ c :: b) c = Some (length a).
Proof.
  induction a as [|x a IH]; intros H.
  - simpl. now rewrite Ascii.eqb_refl.
  - simpl. destruct (Ascii.eqb x c) eqn:E.
    + apply eqb_char in E. subst x. exfalso. apply H. now left.
    + rewrite IH; [reflexivity|]. intros Hin. apply H. now right.
Qed.

Lemma strchr_absent (a : cstring) (c : ascii) :
  ~ In c a -> strchr a c = None.
Proof.
  induction a as [|x a IH]; intros H; [reflexivity|].
  simpl. destruct (Ascii.eqb x c) eqn:E.
  - apply eqb_char in E. subst x. exfalso. apply H. now left.
  - rewrite IH; [reflexivity|]. intros Hin. apply H. now right.
Qed.

(** X16.  For a name that is [~] followed by a user name, in a build with
    the user database: the user name is what stands between the [~] and
    the first slash, or the end of the name; the result is the home
    directory of that user joined to what follows the slash, and the null
    pointer with a warning when the user is unknown. *)
Theorem expand_filename_user (e : user_env) (user rest : cstring) :
  HAVE_PWD_H e = true ->
  user <> [] -> ~ In SLASH user -> ~ In NUL user ->
  expand_filename Posix e (TILDE :: user ++ SLASH :: rest)
  = match get_user_homedir e user with
    | None => (None, [WarnNoHomedir user])
    | Some home => (Some (join_home home rest), [])
    end
  /\ expand_filename Posix e (TILDE :: user)
     = match get_user_homedir e user with
       | None => (None, [WarnNoHomedir user])
       | Some home => (Some (join_home home []), [])
       end.
Proof.
  intros Hpwd Hne Hslash Hnul.
  destruct user as [|u user]; [contradiction|].
  assert (Hu1 : Ascii.eqb u SLASH = false).
  { apply neqb_char. intros ->. apply Hslash. now left. }
  assert (Hu2 : Ascii.eqb u NUL = false).
  { apply neqb_char. intros ->. apply Hnul. now left. }
  assert (Ht : Ascii.eqb TILDE SLASH = false) by reflexivity.
  assert (Hs : forall l, strchr (TILDE :: l) SLASH
                         = option_map S (strchr l SLASH)) by reflexivity.
  set (name := u :: user) in *.
  assert (Euser : firstn (S (length name) - 1)
                    (skipn 1 (TILDE :: name ++ SLASH :: rest)) = name).
  { cbn [skipn]. replace (S (length name) - 1) with (length name) by lia.
    now rewrite firstn_app, firstn_all, Nat.sub_diag, app_nil_r. }
  assert (Erest : skipn (S (length name) + 1)
                    (TILDE :: name ++ SLASH :: rest) = rest).
  { replace (S (length name) + 1) with (S (length (name ++ [SLASH])))
      by (rewrite length_app; simpl; lia).
    cbn [skipn].
    replace (name ++ SLASH :: rest) with ((name ++ [SLASH]) ++ rest)
      by now rewrite <- app_assoc.
    now rewrite skipn_app, skipn_all, Nat.sub_diag. }
  split.
  - unfold expand_filename.
    assert (E0 : (TILDE :: name ++ SLASH :: rest) @ 0 = TILDE)
      by reflexivity.
    assert (E1 : (TILDE :: name ++ SLASH :: rest) @ 1 = u) by reflexivity.
    rewrite E0, E1, Ascii.eqb_refl, Hu1, Hu2, Hpwd. cbn [orb].
    rewrite Hs, (strchr_found name rest SLASH Hslash).
    cbn [option_map]. unfold tor_strndup. rewrite Euser, Erest.
    reflexivity.
  - unfold expand_filename.
    assert (E0 : (TILDE :: name) @ 0 = TILDE) by reflexivity.
    assert (E1 : (TILDE :: name) @ 1 = u) by reflexivity.
    rewrite E0, E1, Ascii.eqb_refl, Hu1, Hu2, Hpwd. cbn [orb].
    rewrite Hs, (strchr_absent name SLASH Hslash).
    reflexivity.
Qed.

Lemma expand_filename_user_witness :
  expand_filename Posix home_env (cs "~bob/keys/id")
  = (Some (cs "/srv/bob/keys/id"), [])
  /\ expand_filename Posix home_env (cs "~eve")
     = (None, [WarnNoHomedir (cs "eve")]).
Proof.
  assert (Hb : ~ In SLASH (cs "bob") /\ ~ In NUL (cs "bob")).
  { split; intros H; vm_compute in H;
      repeat (destruct H as [H|H]; [discriminate H|]); exact H. }
  assert (He : ~ In SLASH (cs "eve") /\ ~ In NUL (cs "eve")).
  { split; intros H; vm_compute in H;
      repeat (destruct H as [H|H]; [discriminate H|]); exact H. }
  split.
  - exact (proj1 (expand_filename_user home_env (cs "bob") (cs "keys/id")
                    eq_refl ltac:(discriminate) (proj1 Hb) (proj2 Hb))).
  - exact (proj2 (expand_filename_user home_env (cs "eve") []
                    eq_refl ltac:(discriminate) (proj1 He) (proj2 He))).
Defined.

Lemma join_home_head (home rest : cstring) :
  home = [] \/ home @ 0 = SLASH -> join_home home rest @ 0 = SLASH.
Proof.
  intros H. unfold join_home.
  destruct home as [|c t]; [reflexivity|].
  destruct H as [H|H]; [discriminate H|].
  change ((c :: t) @ 0) with c in H. subst c.
  destruct ((1 <? length (SLASH :: t)) && _) eqn:E; [|reflexivity].
  apply andb_true_iff in E. destruct E as [E _]. apply Nat.ltb_lt in E.
  destruct t as [|d t]; [simpl in E; lia|]. reflexivity.
Qed.

(** X17.  The call returns the null pointer only for a name that is [~]
    followed by a user name, in a build with the user database.  And when
    the home directories it is given are absolute, a name starting with
    [~] expands, in such a build, to a name that is not relative. *)
Theorem expand_filename_outcomes (p : platform) (e : user_env)
  (filename : cstring) :
  (fst (expand_filename p e filename) = None ->
   p = Posix /\ HAVE_PWD_H e = true /\ filename @ 0 = TILDE
   /\ filename @ 1 <> SLASH /\ filename @ 1 <> NUL)
  /\ (forall r,
         filename @ 0 = TILDE -> HAVE_PWD_H e = true ->
         (forall h, getenv_HOME e = Some h -> h = [] \/ h @ 0 = SLASH) ->
         (forall u h, get_user_homedir e u = Some h -> h @ 0 = SLASH) ->
         fst (expand_filename Posix e filename) = Some r ->
         path_is_relative Posix (Some r) = 0%Z).
Proof.
  split.
  - unfold expand_filename. destruct p; [|discriminate].
    destruct (Ascii.eqb (filename @ 0) TILDE) eqn:E0; [|discriminate].
    destruct (Ascii.eqb (filename @ 1) SLASH) eqn:E1.
    { cbn [orb]. destruct (getenv_HOME e); discriminate. }
    destruct (Ascii.eqb (filename @ 1) NUL) eqn:E2.
    { cbn [orb]. destruct (getenv_HOME e); discriminate. }
    cbn [orb]. destruct (HAVE_PWD_H e); [|discriminate].
    intros _. repeat split; try (now apply eqb_char); now apply neqb_char.
  - intros r H0 Hpwd Hhome Huser. unfold expand_filename.
    apply eqb_char in H0. rewrite H0, Hpwd.
    assert (Habs : forall home rest,
               home = [] \/ home @ 0 = SLASH ->
               Some (join_home home rest) = Some r ->
               path_is_relative Posix (Some r) = 0%Z).
    { intros home rest Hh E. injection E as <-. unfold path_is_relative.
      now rewrite (join_home_head home rest Hh), Ascii.eqb_refl. }
    destruct (_ || _).
    + destruct (getenv_HOME e) as [h|] eqn:Eh; cbn [fst].
      * apply Habs. now apply Hhome.
      * apply Habs. now left.
    + destruct (get_user_homedir e _) as [h|] eqn:Eh; cbn [fst];
        [|discriminate].
      apply Habs. right. exact (Huser _ _ Eh).
Qed.

Lemma expand_filename_outcomes_witness :
  fst (expand_filename Posix home_env (cs "~bob/keys"))
  = Some (cs "/srv/bob/keys")
  /\ path_is_relative Posix (Some (cs "/srv/bob/keys")) = 0%Z.
Proof.
  split; [reflexivity|].
  apply (proj2 (expand_filename_outcomes Posix home_env (cs "~bob/keys"))).
  - reflexivity.
  - reflexivity.
  - intros h H. injection H as <-. now right.
  - intros u h H. unfold home_env in H. cbn [get_user_homedir] in H.
    destruct (cstring_eqb u (cs "bob")); [|discriminate H].
    injection H as <-. reflexivity.
  - reflexivity.
Defined.


(** ** The working directory *)

Lemma alloc_getcwd_loop_finds (e : cwd_env) (cwd : cstring) :
  (forall size, getcwd e size = posix_getcwd cwd size) ->
  forall k size,
    length cwd < size * 2 ^ k ->
    alloc_getcwd_loop e (S k) size = Done (Some cwd).
Proof.
  intros Hg. induction k as [|k IH]; intros size Hlen.
  - cbn [alloc_getcwd_loop]. rewrite Hg. unfold posix_getcwd.
    replace (length cwd <? size) with true; [reflexivity|].
    symmetry. apply Nat.ltb_lt. simpl in Hlen. lia.
  - cbn [alloc_getcwd_loop]. rewrite Hg. unfold posix_getcwd.
    destruct (length cwd <? size); [reflexivity|].
    apply IH. rewrite Nat.pow_succ_r' in Hlen. lia.
Qed.

Lemma alloc_getcwd_loop_goes_on (e : cwd_env) (cwd : cstring) :
  (forall size, getcwd e size = posix_getcwd cwd size) ->
  forall k size,
    size * 2 ^ k <= length cwd ->
    alloc_getcwd_loop e (S k) size = Timeout.
Proof.
  intros Hg. induction k as [|k IH]; intros size Hlen.
  - cbn [alloc_getcwd_loop]. rewrite Hg. unfold posix_getcwd.
    replace (length cwd <? size) with false; [reflexivity|].
    symmetry. apply Nat.ltb_ge. simpl in Hlen. lia.
  - assert (Hs : size <= length cwd).
    { pose proof (Nat.pow_nonzero 2 (S k) ltac:(lia)). nia. }
    cbn [alloc_getcwd_loop]. rewrite Hg. unfold posix_getcwd.
    replace (length cwd <? size) with false
      by (symmetry; now apply Nat.ltb_ge).
    apply IH. rewrite Nat.pow_succ_r' in Hlen. lia.
Qed.

(** X18.  Without [get_current_dir_name], [alloc_getcwd] asks [getcwd]
    with a buffer of 1024 bytes and doubles the buffer as long as the
    answer is [ERANGE].  For a working directory of any length it returns
    the whole name: [k + 1] calls are enough when the name is shorter than
    [1024 * 2 ^ k], and not enough otherwise. *)
Theorem alloc_getcwd_finds_cwd (e : cwd_env) (cwd : cstring) :
  HAVE_GET_CURRENT_DIR_NAME e = false ->
  (forall size, getcwd e size = posix_getcwd cwd size) ->
  (exists k, alloc_getcwd e (S k) = Done (Some cwd))
  /\ (forall k, length cwd < 1024 * 2 ^ k ->
                alloc_getcwd e (S k) = Done (Some cwd))
  /\ (forall k, 1024 * 2 ^ k <= length cwd ->
                alloc_getcwd e (S k) = Timeout).
Proof.
  intros Hcfg Hg. unfold alloc_getcwd. rewrite Hcfg.
  split; [|split].
  - exists (length cwd). apply (alloc_getcwd_loop_finds e cwd Hg).
    pose proof (Nat.pow_gt_lin_r 2 (length cwd) ltac:(lia)). lia.
  - intros k Hk. now apply alloc_getcwd_loop_finds.
  - intros k Hk. now apply alloc_getcwd_loop_goes_on with cwd.
Qed.

Lemma alloc_getcwd_finds_cwd_witness :
  alloc_getcwd work_env 1 = Done (Some (cs "/work")).
Proof.
  apply (proj1 (proj2 (alloc_getcwd_finds_cwd work_env (cs "/work")
                         eq_refl (fun _ => eq_refl))) 0).
  vm_compute. lia.
Defined.

(** X19.  When the working directory is known and absolute,
    [make_path_absolute] returns a name that is not relative: the name
    given if that starts with a slash, and otherwise the working
    directory, a slash and the name.  Applied to its own result it returns
    that result again. *)
Theorem make_path_absolute_is_absolute (e : cwd_env) (fuel : nat)
  (path fname : cstring) :
  alloc_getcwd e fuel = Done (Some path) ->
  path @ 0 = SLASH ->
  exists r w,
    make_path_absolute Posix e fuel fname = Done (r, w)
    /\ path_is_relative Posix (Some r) = 0%Z
    /\ make_path_absolute Posix e fuel r = Done (r, [])
    /\ (fname @ 0 = SLASH -> r = fname)
    /\ (fname @ 0 <> SLASH -> r = path ++ [SLASH] ++ fname).
Proof.
  intros Hcwd Habs. unfold make_path_absolute.
  destruct (Ascii.eqb (fname @ 0) SLASH) eqn:E.
  - exists fname, []. split; [reflexivity|].
    unfold path_is_relative. rewrite E. split; [reflexivity|].
    split; [reflexivity|]. split; [reflexivity|].
    intros H. apply neqb_char in H. congruence.
  - rewrite Hcwd. exists (path ++ [SLASH] ++ fname), [].
    assert (Hr : (path ++ [SLASH] ++ fname) @ 0 = SLASH).
    { destruct path as [|c t]; [reflexivity|exact Habs]. }
    split; [reflexivity|].
    unfold path_is_relative. rewrite Hr, Ascii.eqb_refl.
    split; [reflexivity|]. split; [reflexivity|].
    split; [|reflexivity].
    intros H. apply eqb_char in H. congruence.
Qed.

Lemma make_path_absolute_is_absolute_witness :
  make_path_absolute Posix work_env 1 (cs "torrc")
  = Done (cs "/work/torrc", [])
  /\ make_path_absolute Posix work_env 1 (cs "/work/torrc")
     = Done (cs "/work/torrc", []).
Proof.
  destruct (make_path_absolute_is_absolute work_env 1 (cs "/work")
              (cs "torrc") eq_refl eq_refl)
    as (r & w & Hrun & _ & Hagain & _ & Hr).
  rewrite (Hr ltac:(discriminate)) in Hagain.
  split; [reflexivity|exact Hagain].
Defined.

Lemma drive_prefix_joined (p : platform) (dir rest : cstring) (c : ascii) :
  dir <> [] -> is_sep p c = true ->
  drive_prefix p (dir ++ c :: rest) = drive_prefix p dir.
Proof.
  intros Hne Hc. destruct p; [reflexivity|].
  unfold drive_prefix.
  destruct dir as [|a [|b dir]]; [contradiction| |reflexivity].
  assert (E0 : ([a] ++ c :: rest) @ 0 = a) by reflexivity.
  assert (E1 : ([a] ++ c :: rest) @ 1 = c) by reflexivity.
  assert (E2 : [a] @ 0 = a) by reflexivity.
  assert (E3 : [a] @ 1 = NUL) by reflexivity.
  rewrite E0, E1, E2, E3.
  destruct (negb (Ascii.eqb a NUL)); [|reflexivity]. cbn [andb].
  replace (Ascii.eqb NUL COLON) with false by reflexivity.
  destruct (Ascii.eqb c COLON) eqn:E; [|reflexivity].
  apply eqb_char in E. subst c. discriminate Hc.
Qed.

(** X20.  The parent of a directory joined to a name is the directory: for
    a name without separators put after a directory and a separator,
    [get_parent_directory] returns 0 and leaves the directory, provided
    the directory is more than a drive prefix. *)
Theorem get_parent_directory_of_joined (p : platform) (dir name : cstring)
  (c : ascii) :
  drive_prefix p dir < length dir ->
  is_sep p c = true -> name <> [] -> sep_free p name ->
  get_parent_directory p (dir ++ [c] ++ name) = (0%Z, dir).
Proof.
  intros Hd Hc Hn Hf.
  assert (Hne : dir <> []) by (destruct dir; [simpl in Hd; lia|discriminate]).
  assert (Hdp : drive_prefix p (dir ++ [c] ++ name) = drive_prefix p dir)
    by now apply drive_prefix_joined.
  rewrite get_parent_directory_of_body. unfold path_body. rewrite Hdp.
  set (d := drive_prefix p dir) in *.
  rewrite skipn_app, firstn_app.
  replace (d - length dir) with 0 by lia.
  rewrite skipn_O, firstn_O, app_nil_r.
  replace (skipn d dir ++ [c] ++ name)
    with (skipn d dir ++ [c] ++ name ++ []) by now rewrite app_nil_r.
  rewrite parent_loop_with_parent; try assumption; [|constructor].
  destruct (skipn d dir) as [|x t] eqn:Es.
  - apply (f_equal (@length ascii)) in Es. rewrite length_skipn in Es.
    simpl in Es. lia.
  - rewrite <- Es. now rewrite firstn_skipn.
Qed.

Lemma get_parent_directory_of_joined_witness :
  get_parent_directory Win32 (path_join (cs "c:\tor") (cs "torrc"))
  = (0%Z, cs "c:\tor").
Proof.
  apply (get_parent_directory_of_joined Win32 (cs "c:\tor") (cs "torrc")
           BACKSLASH).
  - vm_compute. lia.
  - reflexivity.
  - discriminate.
  - repeat constructor.
Defined.

(** X21.  A bare file name made absolute has the working directory as its
    parent. *)
Theorem parent_of_absolute_name (e : cwd_env) (fuel : nat)
  (path name : cstring) :
  alloc_getcwd e fuel = Done (Some path) ->
  path <> [] -> name <> [] -> sep_free Posix name ->
  make_path_absolute Posix e fuel name = Done (path ++ [SLASH] ++ name, [])
  /\ get_parent_directory Posix (path ++ [SLASH] ++ name) = (0%Z, path).
Proof.
  intros Hcwd Hp Hn Hf. split.
  - unfold make_path_absolute.
    replace (Ascii.eqb (name @ 0) SLASH) with false; [now rewrite Hcwd|].
    symmetry. apply (sep_free_at Posix name 0 Hf).
    destruct name; [contradiction|simpl; lia].
  - rewrite get_parent_directory_of_body.
    change (path_body Posix (path ++ [SLASH] ++ name))
      with (path ++ [SLASH] ++ name).
    replace (path ++ [SLASH] ++ name) with (path ++ [SLASH] ++ name ++ [])
      by now rewrite app_nil_r.
    rewrite parent_loop_with_parent;
      [|reflexivity|assumption|assumption|constructor].
    now destruct path.
Qed.

Lemma parent_of_absolute_name_witness :
  make_path_absolute Posix work_env 1 (cs "torrc")
  = Done (cs "/work/torrc", [])
  /\ get_parent_directory Posix (cs "/work/torrc") = (0%Z, cs "/work").
Proof.
  apply (parent_of_absolute_name work_env 1 (cs "/work") (cs "torrc")).
  - reflexivity.
  - discriminate.
  - discriminate.
  - repeat constructor.
Defined.


(** ** A pattern whose last fragment holds the globs *)

Lemma has_glob_of_count (s : cstring) :
  count_globs s = 0 -> has_glob Win32 s = false.
Proof.
  intros H. destruct (has_glob Win32 s) eqn:E; [|reflexivity].
  apply has_glob_true in E. destruct E as (i & Hi & Hm & _).
  assert (Hc : is_metachar (s @ i) = true).
  { unfold is_metachar. apply orb_true_iff.
    destruct Hm as [-> | ->]; [left|right]; apply Ascii.eqb_refl. }
  pose proof (count_globs_pos s i Hi Hc). lia.
Qed.

Lemma path_join_nil (p : cstring) : path_join p [] = probe p.
Proof. reflexivity. Qed.

Section LastFragment.

Variable fs : filesystem.
Hypothesis Hlist : glob_free_listings fs.

Variables (pattern : cstring) (prev_sep curr_sep : Z).
Variable paths : list cstring.
Hypothesis Hfragment : glob_fragment pattern = (true, prev_sep, curr_sep).
Hypothesis Hlast : glob_suffix pattern curr_sep = [].
Hypothesis Hunglob :
  value (unglob_win32 fs pattern prev_sep curr_sep) = Some paths.

Lemma probe_has_no_glob (p : cstring) :
  In p paths -> has_glob Win32 (probe p) = false.
Proof.
  intros Hin. apply has_glob_of_count.
  (* the probe is the directory, a separator, an entry and a separator *)
  pose proof Hunglob as Hu. rewrite unglob_win32_value in Hu. cbv zeta in Hu.
  destruct (is_file _); [injection Hu as <-; contradiction|].
  destruct (tor_listdir fs (path_until_glob pattern prev_sep))
    as [fl|] eqn:El; [|discriminate Hu].
  injection Hu as Hp. rewrite <- Hp in Hin.
  apply unglob_entries_from in Hin.
  destruct Hin as [[]|(f & Hfl & ->)].
  destruct (glob_fragment_found _ _ _ Hfragment) as [Hdir _].
  unfold probe, path_join. rewrite !count_globs_app, Hdir.
  rewrite (count_globs_no_glob f (Hlist _ _ _ El Hfl)).
  reflexivity.
Qed.

Lemma probe_run (n : nat) (p : cstring) :
  In p paths ->
  value (tor_glob_win32 fs (S n) (path_join p (glob_suffix pattern curr_sep)))
  = match file_status fs (probe p) with
    | FN_ERROR => Finished None
    | FN_NOENT => Finished (Some [])
    | _ => Finished (Some [clean_fname_for_stat Win32 (probe p)])
    end.
Proof.
  intros Hin. rewrite Hlast, path_join_nil.
  rewrite (tor_glob_win32_non_glob fs n (probe p) (probe_has_no_glob p Hin)).
  reflexivity.
Qed.

Lemma expand_each_probes (n : nat) (l : list cstring) :
  incl l paths ->
  (forall p, In p l -> file_status fs (probe p) <> FN_ERROR) ->
  forall results,
    value (expand_each (tor_glob_win32 fs (S n))
             (glob_suffix pattern curr_sep) l results)
    = Some (false,
            results
              ++ map (fun p => clean_fname_for_stat Win32 (probe p))
                   (filter (fun p => status_exists (file_status fs (probe p)))
                      l)).
Proof.
  induction l as [|p l IH]; intros Hincl Hok results.
  - cbn. now rewrite app_nil_r.
  - rewrite expand_each_cons, value_bind.
    rewrite (probe_run n p (Hincl p (or_introl eq_refl))).
    assert (Hp : file_status fs (probe p) <> FN_ERROR)
      by (apply Hok; now left).
    assert (Hrest : incl l paths)
      by (intros x Hx; apply Hincl; now right).
    assert (Hokl : forall q, In q l -> file_status fs (probe q) <> FN_ERROR)
      by (intros q Hq; apply Hok; now right).
    cbn [filter].
    destruct (file_status fs (probe p)) eqn:Es; try contradiction;
      rewrite (IH Hrest Hokl); cbn [status_exists map];
      rewrite <- ?app_assoc, ?app_nil_r; reflexivity.
Qed.

(** X22.  For a pattern whose globs are in its last fragment, with
    directory listings that name no entry with a metacharacter: each entry
    matched by [unglob_win32] is confirmed by a status query of the entry
    followed by a separator.  When none of these queries reports an
    error, the result is, in the order of the listing, the cleaned names
    of the entries for which the query does not report [FN_NOENT]; when
    one of them reports an error, the result is the null pointer. *)
Theorem tor_glob_win32_last_fragment (n : nat) :
  ((forall p, In p paths -> file_status fs (probe p) <> FN_ERROR) ->
   value (tor_glob_win32 fs (S (S n)) pattern)
   = Finished
       (Some (map (fun p => clean_fname_for_stat Win32 (probe p))
                (filter (fun p => status_exists (file_status fs (probe p)))
                   paths))))
  /\ ((exists p, In p paths /\ file_status fs (probe p) = FN_ERROR) ->
      value (tor_glob_win32 fs (S (S n)) pattern) = Finished None).
Proof.
  rewrite (tor_glob_win32_glob_value fs (S n) pattern _ _ Hfragment), Hunglob.
  split.
  - intros Hok.
    now rewrite (expand_each_probes n paths (incl_refl _) Hok []).
  - intros (p & Hin & Herr).
    assert (Hfin : forall q, In q paths ->
               value (tor_glob_win32 fs (S n)
                        (path_join q (glob_suffix pattern curr_sep)))
               <> OutOfFuel).
    { intros q Hq. rewrite (probe_run n q Hq).
      destruct (file_status fs (probe q)); discriminate. }
    assert (Hp : value (tor_glob_win32 fs (S n)
                          (path_join p (glob_suffix pattern curr_sep)))
                 = Finished None).
    { rewrite (probe_run n p Hin), Herr. reflexivity. }
    pose proof (expand_each_finishes _ _ paths [] Hfin) as H1.
    pose proof (expand_each_found _ _ paths [] p Hin Hp) as H2.
    destruct (value (expand_each _ _ _ _)) as [[err res]|];
      [|now contradiction H1].
    destruct err; [reflexivity|]. now contradiction (H2 res).
Qed.

End LastFragment.

Lemma tor_glob_win32_last_fragment_witness :
  glob_fragment (cs "d\*") = (true, 1%Z, 2%Z)
  /\ glob_suffix (cs "d\*") 2 = []
  /\ value (unglob_win32 tree_fs (cs "d\*") 1 2) = Some [cs "d\x"; cs "d\y"]
  /\ value (tor_glob_win32 tree_fs 2 (cs "d\*"))
     = Finished (Some [cs "d\x"; cs "d\y"]).
Proof.
  split; [reflexivity|]. split; [reflexivity|]. split; [reflexivity|].
  apply (proj1 (tor_glob_win32_last_fragment tree_fs tree_fs_glob_free
                  (cs "d\*") 1 2 [cs "d\x"; cs "d\y"]
                  eq_refl eq_refl eq_refl 0)).
  intros p [<-|[<-|[]]]; vm_compute; discriminate.
Defined.
